(** * Self-play tic-tac-toe agent ([tic_tac_toe.py]): model and properties

    The rule functions ([empty_cells], [check_winner], [is_full]), the
    perspective encoder, the epsilon-greedy policy, the temporal-difference
    update, the training loop and the pickle persistence of [SelfPlayAgent]
    are embedded as executable Rocq functions.

    - Python floats are binary64: they are Rocq's primitive floats, the
      comparisons are [PrimFloat.ltb] and friends.
    - A Python exception is the [Raise] constructor of [result].
    - The mutable agent is threaded explicitly: a method returns its value
      together with the agent it leaves behind, also when it raises.
    - [self.q] is a [defaultdict(dict)]: the outer mapping is a [gmap], the
      inner [dict] an insertion-ordered association list, because
      [max(next_values.values())] walks it in insertion order. *)

From Stdlib Require Import Floats ZArith Lia.
From stdpp Require Import base option list sorting gmap strings pretty.

Set Warnings "-inexact-float".

(** ** Exceptions *)

Inductive exn := IndexError | ValueError | UnpicklingError.

Inductive result (A : Type) :=
| Ok (a : A)
| Raise (e : exn).
Arguments Ok {A} a.
Arguments Raise {A} e.

#[global] Instance result_ret : MRet result := λ A a, Ok a.
#[global] Instance result_bind : MBind result :=
  λ A B f r, match r with Ok a => f a | Raise e => Raise e end.

(** [seq[i]] for a non-negative [i]: [IndexError] out of range. *)
Definition getitem {A} (l : list A) (i : nat) : result A :=
  match l !! i with
  | Some v => Ok v
  | None => Raise IndexError
  end.

(** [seq[i] = v]: [IndexError] out of range (stdpp's insert is silent there). *)
Definition setitem {A} (l : list A) (i : nat) (v : A) : result (list A) :=
  if decide (i < length l) then Ok (<[i := v]> l) else Raise IndexError.

(** ** Board and rules *)

(** The two marks ["X"] and ["O"]; a cell holds a mark or [" "] ([None]). *)
Inductive mark := X | O.
Abbreviation cell := (option mark).
Abbreviation board := (list cell).

#[global] Instance mark_eq_dec : EqDecision mark.
Proof. solve_decision. Defined.

Definition WIN_LINES : list (nat * nat * nat) :=
  [ (0, 1, 2); (3, 4, 5); (6, 7, 8);
    (0, 3, 6); (1, 4, 7); (2, 5, 8);
    (0, 4, 8); (2, 4, 6) ].

(** [[i for i, v in enumerate(board) if v == " "]], the counter of
    [enumerate] made explicit. *)
Fixpoint empty_cells_from (i : nat) (brd : board) : list nat :=
  match brd with
  | [] => []
  | v :: rest =>
      if decide (v = None) then i :: empty_cells_from (S i) rest
      else empty_cells_from (S i) rest
  end.

Definition empty_cells (brd : board) : list nat := empty_cells_from 0 brd.

(** The loop of [check_winner] over the remaining lines. [and] and the
    chained [==] short-circuit, so [board[b]] and [board[c]] are only read
    when the tests before them succeed. *)
Fixpoint check_lines (brd : board) (lines : list (nat * nat * nat))
  : result (option mark) :=
  match lines with
  | [] => Ok None
  | (a, b, c) :: rest =>
      va ← getitem brd a;
      match va with
      | None => check_lines brd rest
      | Some m =>
          vb ← getitem brd b;
          if decide (va = vb) then
            vc ← getitem brd c;
            if decide (vb = vc) then Ok (Some m) else check_lines brd rest
          else check_lines brd rest
      end
  end.

Definition check_winner (brd : board) : result (option mark) :=
  check_lines brd WIN_LINES.

Definition is_full (brd : board) : bool :=
  forallb (λ v, bool_decide (v ≠ None)) brd.

(** ** State encoder *)

(** The labels ["P"] (the player's own mark), ["E"] (the opponent's) and
    ["_"] (anything else). *)
Inductive label := lP | lE | l_.
Abbreviation state := (list label).

#[global] Instance label_eq_dec : EqDecision label.
Proof. solve_decision. Defined.

#[global] Instance label_countable : Countable label.
Proof.
  refine (inj_countable'
            (λ l, match l with lP => 0 | lE => 1 | l_ => 2 end)
            (λ n, match n with 0 => lP | 1 => lE | _ => l_ end) _).
  by intros [].
Defined.

Definition encode_cell (player opponent : mark) (v : cell) : label :=
  if decide (v = Some player) then lP
  else if decide (v = Some opponent) then lE
  else l_.

Definition encode_state (brd : board) (player : mark) : state :=
  let opponent := if decide (player = X) then O else X in
  encode_cell player opponent <$> brd.

(** ** Dictionaries *)

(** The inner [dict] of the table, in insertion order. *)
Abbreviation dict := (list (nat * float)).

Fixpoint dict_lookup (d : dict) (k : nat) : option float :=
  match d with
  | [] => None
  | (k', v) :: rest => if decide (k' = k) then Some v else dict_lookup rest k
  end.

(** [d.get(k, default)] *)
Definition dict_get (d : dict) (k : nat) (default : float) : float :=
  from_option id default (dict_lookup d k).

(** [d[k] = v]: an existing key keeps its position, a new one goes last. *)
Fixpoint dict_set (d : dict) (k : nat) (v : float) : dict :=
  match d with
  | [] => [(k, v)]
  | (k', v') :: rest =>
      if decide (k' = k) then (k, v) :: rest else (k', v') :: dict_set rest k v
  end.

(** [d.values()] *)
Definition dict_values (d : dict) : list float := d.*2.

(** A key of [self.q]: a state tuple, or [None], which [train] passes as
    [next_state] of a terminal transition. *)
Abbreviation key := (option state).

(** [self.q[k]] on the [defaultdict(dict)]: a missing key is inserted with a
    fresh empty [dict], which is returned. *)
Definition q_getitem (q : gmap key dict) (k : key) : dict * gmap key dict :=
  match q !! k with
  | Some d => (d, q)
  | None => ([], <[k := []]> q)
  end.

(** ** The builtin [max] *)

(** The loop of [max(iterable, key=...)]: the running maximum is replaced
    only by a strictly greater key ([val > maxval]). *)
Fixpoint max_loop {A} (keyf : A → float) (maxitem : A) (maxval : float)
    (rest : list A) : A :=
  match rest with
  | [] => maxitem
  | x :: rest' =>
      let val := keyf x in
      if PrimFloat.ltb maxval val then max_loop keyf x val rest'
      else max_loop keyf maxitem maxval rest'
  end.

(** [max(l, key=keyf)]: [ValueError] on an empty sequence. *)
Definition py_max {A} (keyf : A → float) (l : list A) : result A :=
  match l with
  | [] => Raise ValueError
  | x :: rest => Ok (max_loop keyf x (keyf x) rest)
  end.

(** ** The agent *)

Record SelfPlayAgent := {
  q : gmap key dict;
  alpha : float;
  gamma : float;
  epsilon : float;
}.

(** [SelfPlayAgent(alpha, gamma, epsilon)] *)
Definition init (alpha gamma epsilon : float) : SelfPlayAgent :=
  {| q := ∅; alpha := alpha; gamma := gamma; epsilon := epsilon |}.

(** [SelfPlayAgent()] with the default arguments *)
Definition default_agent : SelfPlayAgent := init 0.2 0.9 0.2.

Definition set_q (self : SelfPlayAgent) (q' : gmap key dict) : SelfPlayAgent :=
  {| q := q'; alpha := alpha self; gamma := gamma self;
     epsilon := epsilon self |}.

(** What the process-wide random source hands to one call of
    [choose_action]: the value of [random.random()] and the integer behind
    [random.choice], reduced modulo the length of the sequence. *)
Record draw := { rand : float; pick : nat }.

(** [random.choice(seq)]: [IndexError] on an empty sequence. *)
Definition random_choice {A} (l : list A) (d : draw) : result A :=
  match l with
  | [] => Raise IndexError
  | _ => getitem l (pick d mod length l)
  end.

(** [values.get(m, 0.0)], the key of the greedy [max]. *)
Definition estimate (values : dict) (m : nat) : float := dict_get values m 0.

Definition choose_action (self : SelfPlayAgent) (brd : board) (player : mark)
    (explore : bool) (d : draw) : result (nat * state) * SelfPlayAgent :=
  let st := encode_state brd player in
  let moves := empty_cells brd in
  if explore && PrimFloat.ltb (rand d) (epsilon self) then
    (m ← random_choice moves d; Ok (m, st), self)
  else
    let '(values, q1) := q_getitem (q self) (Some st) in
    (best ← py_max (estimate values) moves; Ok (best, st), set_q self q1).

(** [max(next_values.values()) if next_values else 0.0] *)
Definition next_best_of (next_values : dict) : float :=
  match dict_values next_values with
  | [] => 0%float
  | v :: rest => max_loop id v v rest
  end.

Definition update (self : SelfPlayAgent) (st : key) (action : nat)
    (reward : float) (next_state : key) (done : bool) : SelfPlayAgent :=
  let '(values, q1) := q_getitem (q self) st in
  let old := dict_get values action 0 in
  let '(target, q2) :=
    if done then (reward, q1)
    else
      let '(next_values, q2) := q_getitem q1 next_state in
      (PrimFloat.sub reward (PrimFloat.mul (gamma self) (next_best_of next_values)), q2) in
  let new := PrimFloat.add old (PrimFloat.mul (alpha self) (PrimFloat.sub target old)) in
  set_q self (<[st := dict_set values action new]> q2).

Definition best_move (self : SelfPlayAgent) (brd : board) (player : mark)
  : result nat * SelfPlayAgent :=
  let '(r, self') := choose_action self brd player false {| rand := 0; pick := 0 |} in
  (ar ← r; Ok ar.1, self').

(** ** Training *)

(** One pass through the body of the [while True] loop, as [train] hands it
    to [update]; [t_mover], [t_before] and [t_after] record the player and
    the board around [board[action] = player]. *)
Record transition := {
  t_mover : mark;
  t_before : board;
  t_action : nat;
  t_state : state;
  t_after : board;
  t_winner : option mark;
  t_done : bool;
  t_reward : float;
  t_next_state : key;
}.

(** The outcome of a loop: its value, the agent it leaves and the number of
    draws taken from the random source. *)
Definition run (A : Type) : Type := result A * SelfPlayAgent * nat.

(** The [while True] loop of one episode. [fuel] bounds the number of passes
    ([None]: the bound was reached); the passes made so far are in [log]. *)
Fixpoint play (fuel : nat) (rng : nat → draw) (self : SelfPlayAgent)
    (tick : nat) (brd : board) (player : mark) (log : list transition)
  : option (run (list transition)) :=
  match fuel with
  | 0 => None
  | S fuel' =>
      match choose_action self brd player true (rng tick) with
      | (Raise e, self1) => Some (Raise e, self1, S tick)
      | (Ok (action, st), self1) =>
          match setitem brd action (Some player) with
          | Raise e => Some (Raise e, self1, S tick)
          | Ok brd1 =>
              match check_winner brd1 with
              | Raise e => Some (Raise e, self1, S tick)
              | Ok winner =>
                  let done := bool_decide (is_Some winner) || is_full brd1 in
                  let reward : float :=
                    if decide (winner = Some player) then 1%float else 0%float in
                  if done then
                    let t := {| t_mover := player; t_before := brd;
                                t_action := action; t_state := st;
                                t_after := brd1; t_winner := winner;
                                t_done := true; t_reward := reward;
                                t_next_state := None |} in
                    Some (Ok (log ++ [t]),
                          update self1 (Some st) action reward None true,
                          S tick)
                  else
                    let next_player := if decide (player = X) then O else X in
                    let next_state := encode_state brd1 next_player in
                    let t := {| t_mover := player; t_before := brd;
                                t_action := action; t_state := st;
                                t_after := brd1; t_winner := winner;
                                t_done := false; t_reward := reward;
                                t_next_state := Some next_state |} in
                    play fuel' rng
                      (update self1 (Some st) action reward (Some next_state) false)
                      (S tick) brd1 next_player (log ++ [t])
              end
          end
      end
  end.

(** The player who moves first in an episode. *)
Definition first_player (episode : nat) : mark :=
  if decide (episode mod 2 = 0) then X else O.

(** The [for episode in range(episodes)] loop from [episode] on, [count]
    episodes to go; [logs] holds the finished episodes. *)
Fixpoint train_from (fuel : nat) (rng : nat → draw) (episode count : nat)
    (self : SelfPlayAgent) (tick : nat) (logs : list (list transition))
  : option (run (list (list transition))) :=
  match count with
  | 0 => Some (Ok logs, self, tick)
  | S count' =>
      match play fuel rng self tick (replicate 9 None) (first_player episode) [] with
      | None => None
      | Some (Raise e, self', tick') => Some (Raise e, self', tick')
      | Some (Ok log, self', tick') =>
          train_from fuel rng (S episode) count' self' tick' (logs ++ [log])
      end
  end.

(** [range(episodes)] is empty for a negative [episodes]. *)
Definition train (fuel : nat) (rng : nat → draw) (self : SelfPlayAgent)
    (tick : nat) (episodes : Z) : option (run (list (list transition))) :=
  train_from fuel rng 0 (Z.to_nat episodes) self tick [].

(** ** Persistence *)

Section Persistence.
(** [pickle] is not part of the program: the contents of a file and the
    two directions of the codec are parameters. *)
Variable bytes : Type.
Variable pickle_dump : gmap key dict → bytes.
Variable pickle_load : bytes → result (gmap key dict).

(** The file system is the mapping from the paths of the regular files to
    their contents. *)

(** [dict(self.q)] and [defaultdict(dict, data)] keep the mapping. *)
Definition load (self : SelfPlayAgent) (fs : gmap string bytes) (path : string)
  : result bool * SelfPlayAgent :=
  match fs !! path with
  | None => (Ok false, self)
  | Some fh =>
      match pickle_load fh with
      | Raise e => (Raise e, self)
      | Ok data => (Ok true, set_q self data)
      end
  end.

Definition save (self : SelfPlayAgent) (fs : gmap string bytes) (path : string)
  : gmap string bytes :=
  <[path := pickle_dump (q self)]> fs.
End Persistence.

Arguments load {bytes} pickle_load self fs path.
Arguments save {bytes} pickle_dump self fs path.

(** What a lookup [table[state].get(action, 0.0)] reads, without the
    insertion a [defaultdict] would make. *)
Definition value_of (tbl : gmap key dict) (st : key) (action : nat) : float :=
  dict_get (default [] (tbl !! st)) action 0.

(** The stored entry of a pair, if there is one. *)
Definition entry (tbl : gmap key dict) (st : key) (action : nat) : option float :=
  tbl !! st ≫= λ d, dict_lookup d action.

(** ** The console *)

(** What the program writes: a line of [print], or the prompt of [input]. *)
Inductive output :=
| Printed (line : string)
| Prompted (prompt : string).

(** What a function at the console may raise: [EOFError] from [input] when
    no line is left, or an exception of the core. *)
Inductive console_exn :=
| EOFError
| Core (e : exn).

Inductive console_result (A : Type) :=
| Returned (a : A)
| Raised (e : console_exn).
Arguments Returned {A} a.
Arguments Raised {A} e.

(** The text of a cell in [display_board]: [str(idx)] for [" "], else the
    mark. *)
Definition cell_text (idx : nat) (v : option mark) : string :=
  match v with
  | None => pretty idx
  | Some X => "X"
  | Some O => "O"
  end.

Definition SEPARATOR : string := "--+---+--".

(** The [for i in range(0, 9, 3)] loop of [display_board] over the
    remaining values of [i]; the f-string reads [cells[i]], [cells[i+1]]
    and [cells[i+2]] before anything of the row is printed. *)
Fixpoint display_rows (cells : list string) (starts : list nat)
    (out : list output) : result unit * list output :=
  match starts with
  | [] => (Ok (), out)
  | i :: rest =>
      match (a ← getitem cells i;
             b ← getitem cells (i + 1);
             c ← getitem cells (i + 2);
             Ok (a +:+ " | " +:+ b +:+ " | " +:+ c)) with
      | Raise e => (Raise e, out)
      | Ok row => display_rows cells rest (out ++ [Printed row; Printed SEPARATOR])
      end
  end.

(** [display_board(board)]: its value and what has been written, [out]
    being what was written before. *)
Definition display_board (brd : board) (out : list output)
  : result unit * list output :=
  let cells := imap cell_text brd in
  display_rows cells [0; 3; 6] (out ++ [Printed SEPARATOR]).

Definition PROMPT_MOVE : string := "0~8の空いている座標を入力してください: ".
Definition MSG_NOT_A_NUMBER : string := "数字で入力してください。".
Definition MSG_OUT_OF_RANGE : string := "0~8の範囲で入力してください。".
Definition MSG_OCCUPIED : string :=
  "そのマスは埋まっています。別の場所を選んでください。".

Section Console.
(** [int(s.strip())] is Python's: its value on a line is a parameter,
    [None] standing for [ValueError]. *)
Variable parse_int : string → option Z.

(** [human_move(board, player)] on the lines [inputs] still to be read: its
    outcome (the board after [board[tgt] = player]), the lines left and
    what has been written. Every pass of the [while True] loop reads one
    line, so the loop is a recursion on [inputs]. *)
Fixpoint human_move (inputs : list string) (out : list output) (brd : board)
    (player : mark) : console_result board * list string * list output :=
  match inputs with
  | [] => (Raised EOFError, [], out ++ [Prompted PROMPT_MOVE])
  | line :: rest =>
      let out1 := out ++ [Prompted PROMPT_MOVE] in
      match parse_int line with
      | None => human_move rest (out1 ++ [Printed MSG_NOT_A_NUMBER]) brd player
      | Some tgt =>
          if decide (0 ≤ tgt < 9)%Z then
            match getitem brd (Z.to_nat tgt) with
            | Raise e => (Raised (Core e), rest, out1)
            | Ok v =>
                if decide (v ≠ None) then
                  human_move rest (out1 ++ [Printed MSG_OCCUPIED]) brd player
                else
                  (Returned (<[Z.to_nat tgt := Some player]> brd), rest, out1)
            end
          else human_move rest (out1 ++ [Printed MSG_OUT_OF_RANGE]) brd player
      end
  end.
End Console.

(** ** Playing against the agent *)

Definition human : mark := O.
Definition cpu : mark := X.

(** A mark as text, for [f"{win} の勝ち"]. *)
Definition mark_text (m : mark) : string :=
  match m with
  | X => "X"
  | O => "O"
  end.

Definition MSG_LOADED : string := "保存済みの学習結果を読み込みました。".
Definition MSG_TRAINED : string := "学習完了。コンピュータと対戦できます。".
Definition PROMPT_FIRST : string := "先手を打ちますか？(y/n): ".
Definition PROMPT_RETRY : string := "もう一度プレイしますか？(y/n): ".
Definition MSG_YOUR_TURN : string := "あなたの番 (O)".
Definition MSG_DRAW : string := "引き分け".

(** [f"自己対戦で{episodes}ゲーム学習中..."] *)
Definition msg_training (episodes : Z) : string :=
  "自己対戦で" +:+ pretty episodes +:+ "ゲーム学習中...".

(** [f"コンピュータの番 (X) -> {move}"] *)
Definition msg_cpu_move (move : nat) : string :=
  "コンピュータの番 (X) -> " +:+ pretty move.

(** [f"{win} の勝ち"] *)
Definition msg_win (win : mark) : string := mark_text win +:+ " の勝ち".

(** [input(prompt)]: the prompt is written, then a line is read; [None]
    stands for [EOFError]. *)
Definition input (prompt : string) (inputs : list string) (out : list output)
  : option string * list string * list output :=
  match inputs with
  | [] => (None, [], out ++ [Prompted prompt])
  | line :: rest => (Some line, rest, out ++ [Prompted prompt])
  end.

(** The outcome of a loop at the console: its value, the agent, the lines
    left and what has been written. *)
Definition session (A : Type) : Type :=
  console_result A * SelfPlayAgent * list string * list output.

Section Session.
Context {bytes : Type}.
(** The library functions behind the program are parameters: the pickle
    codec, [int(s.strip())], and the test [s.strip().lower() == "y"]. *)
Variable pickle_dump : gmap key dict → bytes.
Variable pickle_load : bytes → result (gmap key dict).
Variable parse_int : string → option Z.
Variable says_y : string → bool.
(** [Path(__file__).with_name("q_table.pkl")] *)
Variable Q_TABLE_PATH : string.

(** The inner [while True] loop of [play_against_agent], one game from
    [brd] with [current] to move. [fuel] bounds the number of passes. *)
Fixpoint game (fuel : nat) (agent : SelfPlayAgent) (inputs : list string)
    (out : list output) (brd : board) (current : mark)
  : option (session unit) :=
  match fuel with
  | 0 => None
  | S fuel' =>
      let moved : session board :=
        if decide (current = human) then
          let '(r, inputs1, out1) :=
            human_move parse_int inputs (out ++ [Printed MSG_YOUR_TURN])
              brd human in
          (r, agent, inputs1, out1)
        else
          match best_move agent brd cpu with
          | (Raise e, agent1) => (Raised (Core e), agent1, inputs, out)
          | (Ok move, agent1) =>
              let out1 := out ++ [Printed (msg_cpu_move move)] in
              match setitem brd move (Some cpu) with
              | Raise e => (Raised (Core e), agent1, inputs, out1)
              | Ok brd1 => (Returned brd1, agent1, inputs, out1)
              end
          end in
      match moved with
      | (Raised e, agent1, inputs1, out1) =>
          Some (Raised e, agent1, inputs1, out1)
      | (Returned brd1, agent1, inputs1, out1) =>
          match display_board brd1 out1 with
          | (Raise e, out2) => Some (Raised (Core e), agent1, inputs1, out2)
          | (Ok _, out2) =>
              match check_winner brd1 with
              | Raise e => Some (Raised (Core e), agent1, inputs1, out2)
              | Ok (Some win) =>
                  Some (Returned (), agent1, inputs1,
                        out2 ++ [Printed (msg_win win)])
              | Ok None =>
                  if is_full brd1 then
                    Some (Returned (), agent1, inputs1,
                          out2 ++ [Printed MSG_DRAW])
                  else
                    game fuel' agent1 inputs1 out2 brd1
                      (if decide (current = cpu) then human else cpu)
              end
          end
      end
  end.

(** The outer [while True] loop: game after game until the answer to the
    last prompt is not yes. [fuel] bounds the number of games, and a game
    may make nine passes. *)
Fixpoint games (fuel : nat) (agent : SelfPlayAgent) (inputs : list string)
    (out : list output) : option (session unit) :=
  match fuel with
  | 0 => None
  | S fuel' =>
      match input PROMPT_FIRST inputs out with
      | (None, inputs1, out1) => Some (Raised EOFError, agent, inputs1, out1)
      | (Some line, inputs1, out1) =>
          let current := if says_y line then human else cpu in
          match display_board (replicate 9 None) out1 with
          | (Raise e, out2) => Some (Raised (Core e), agent, inputs1, out2)
          | (Ok _, out2) =>
              match game 9 agent inputs1 out2 (replicate 9 None) current with
              | None => None
              | Some (Raised e, agent1, inputs2, out3) =>
                  Some (Raised e, agent1, inputs2, out3)
              | Some (Returned _, agent1, inputs2, out3) =>
                  match input PROMPT_RETRY inputs2 out3 with
                  | (None, inputs3, out4) =>
                      Some (Raised EOFError, agent1, inputs3, out4)
                  | (Some retry, inputs3, out4) =>
                      if says_y retry then games fuel' agent1 inputs3 out4
                      else Some (Returned (), agent1, inputs3, out4)
                  end
              end
          end
      end
  end.

(** The first part of [play_against_agent]: load the table, or train one
    and save it. [train] is given room for nine passes per episode, which
    is all it can use; the file system is part of the outcome. *)
Definition prepare (rng : nat → draw) (agent : SelfPlayAgent)
    (fs : gmap string bytes) (episodes : Z) (out : list output)
  : option (result unit * SelfPlayAgent * gmap string bytes * list output) :=
  match load pickle_load agent fs Q_TABLE_PATH with
  | (Raise e, agent1) => Some (Raise e, agent1, fs, out)
  | (Ok true, agent1) => Some (Ok (), agent1, fs, out ++ [Printed MSG_LOADED])
  | (Ok false, agent1) =>
      let out1 := out ++ [Printed (msg_training episodes)] in
      match train 9 rng agent1 0 episodes with
      | None => None
      | Some (Raise e, agent2, _) => Some (Raise e, agent2, fs, out1)
      | Some (Ok _, agent2, _) =>
          Some (Ok (), agent2, save pickle_dump agent2 fs Q_TABLE_PATH,
                out1 ++ [Printed MSG_TRAINED])
      end
  end.

(** [play_against_agent(agent, episodes)] on the lines [inputs]: every game
    reads at least one line, so there are no more games than lines. *)
Definition play_against_agent (rng : nat → draw) (agent : SelfPlayAgent)
    (fs : gmap string bytes) (episodes : Z) (inputs : list string)
  : option (session unit * gmap string bytes) :=
  match prepare rng agent fs episodes [] with
  | None => None
  | Some (Raise e, agent1, fs1, out1) =>
      Some ((Raised (Core e), agent1, inputs, out1), fs1)
  | Some (Ok _, agent1, fs1, out1) =>
      match games (S (length inputs)) agent1 inputs out1 with
      | None => None
      | Some s => Some (s, fs1)
      end
  end.
End Session.

(** ** Vocabulary of the statements *)

(** The values stored under a key, in insertion order. *)
Definition stored_values (tbl : gmap key dict) (k : key) : list float :=
  dict_values (default [] (tbl !! k)).

(** Exchanging the labels ["P"] and ["E"]. *)
Definition swap_label (l : label) : label :=
  match l with
  | lP => lE
  | lE => lP
  | l_ => l_
  end.

(** The three cells of a line all hold the mark [m]. *)
Definition line_full (brd : board) (m : mark) (line : nat * nat * nat) : Prop :=
  brd !! line.1.1 = Some (Some m) ∧
  brd !! line.1.2 = Some (Some m) ∧
  brd !! line.2 = Some (Some m).

(** The indices of a line are cells of the board. *)
Definition line_in_range (brd : board) (line : nat * nat * nat) : Prop :=
  line.1.1 < length brd ∧ line.1.2 < length brd ∧ line.2 < length brd.

(** The other player, as [train] computes [next_player]. *)
Definition other (player : mark) : mark := if decide (player = X) then O else X.

(** No line of the board is full. *)
Definition no_winner (brd : board) : Prop :=
  ∀ line m, line ∈ WIN_LINES → ¬ line_full brd m line.

(** What one pass of the loop does, read off its record. *)
Definition transition_ok (t : transition) : Prop :=
  length (t_before t) = 9 ∧
  no_winner (t_before t) ∧
  t_state t = encode_state (t_before t) (t_mover t) ∧
  t_before t !! t_action t = Some None ∧
  t_after t = <[t_action t := Some (t_mover t)]> (t_before t) ∧
  length (empty_cells (t_after t)) + 1 = length (empty_cells (t_before t)) ∧
  check_winner (t_after t) = Ok (t_winner t) ∧
  t_done t = bool_decide (is_Some (t_winner t)) || is_full (t_after t) ∧
  t_reward t = (if decide (t_winner t = Some (t_mover t)) then 1 else 0)%float ∧
  t_next_state t =
    (if t_done t then None
     else Some (encode_state (t_after t) (other (t_mover t)))) ∧
  (∀ line m, line ∈ WIN_LINES → line_full (t_after t) m line → m = t_mover t).

(** The record of a whole episode from [brd] with [player] to move: the
    passes chain, the players alternate, and only the last pass is [done]. *)
Fixpoint episode_ok (brd : board) (player : mark) (log : list transition)
  : Prop :=
  match log with
  | [] => False
  | t :: rest =>
      t_before t = brd ∧ t_mover t = player ∧ transition_ok t ∧
      match rest with
      | [] => t_done t = true
      | _ :: _ =>
          t_done t = false ∧ episode_ok (t_after t) (other player) rest
      end
  end.

(** What the examples show of a recorded pass. *)
Definition summary (t : transition) : mark * nat * bool * float :=
  (t_mover t, t_action t, t_done t, t_reward t).

(** The cell a label stands for when [player] is the one encoded as ["P"]. *)
Definition decode_label (player : mark) (l : label) : option mark :=
  match l with
  | lP => Some player
  | lE => Some (other player)
  | l_ => None
  end.

(** The board a state stands for, seen by [player]. *)
Definition decode_state (player : mark) (st : state) : board :=
  decode_label player <$> st.

(** The board with the two marks exchanged. *)
Definition swap_marks (brd : board) : board :=
  (λ v : option mark, other <$> v) <$> brd.

(** The number of cells holding the mark [m]. *)
Definition count_mark (m : mark) (brd : board) : nat :=
  length (filter (λ v, v = Some m) brd).

(** The player to move has placed as many marks as the other, or one less. *)
Definition turn_ok (brd : board) (player : mark) : Prop :=
  count_mark player brd ≤ count_mark (other player) brd ∧
  count_mark (other player) brd ≤ count_mark player brd + 1.

(** A line that [human_move] answers with a message and another prompt:
    not a number, a number outside [range(9)], or a cell that holds a mark. *)
Definition rejected (parse_int : string → option Z) (brd : board)
    (line : string) : Prop :=
  match parse_int line with
  | None => True
  | Some tgt =>
      ¬ (0 ≤ tgt < 9)%Z ∨ ∃ m, brd !! Z.to_nat tgt = Some (Some m)
  end.

(** What a loop at the console keeps: it ends by returning or by running
    out of lines, the agent has the stored values and parameters it had,
    and lines are only read and output only added. *)
Definition session_ok (agent : SelfPlayAgent) (inputs : list string)
    (out : list output) (s : session unit) : Prop :=
  (s.1.1.1 = Returned () ∨ s.1.1.1 = Raised EOFError) ∧
  (∀ k a, entry (q s.1.1.2) k a = entry (q agent) k a) ∧
  alpha s.1.1.2 = alpha agent ∧ gamma s.1.1.2 = gamma agent ∧
  epsilon s.1.1.2 = epsilon agent ∧
  (∃ read, inputs = read ++ s.1.2) ∧
  (∃ more, s.2 = out ++ more).

(** ** Data of the examples *)

(** A board after one move of each player. *)
Definition board_ex : board :=
  [Some X; None; Some O; None; None; None; None; None; None].

(** An agent that values the moves 4 and 3 on [board_ex] equally, the
    later move stored first. *)
Definition agent_ex : SelfPlayAgent :=
  set_q default_agent
    {[ Some (encode_state board_ex X) := [(4, 0.5%float); (3, 0.5%float)] ]}.

(** A draw above the default [epsilon]: the greedy branch. *)
Definition draw_ex : draw := {| rand := 0.5; pick := 7 |}.

(** A board with the first row full of X and the second full of O. *)
Definition board_xo : board :=
  [Some X; Some X; Some X; Some O; Some O; Some O; None; None; None].

(** A random source for the examples: it explores on every other call. *)
Definition rng_ex (n : nat) : draw :=
  {| rand := if Nat.even n then 0%float else 1%float; pick := 3 * n + 1 |}.

(** The run of the examples: two episodes of a fresh default agent. *)
Definition train_ex_run : option (run (list (list transition))) :=
  train 9 rng_ex default_agent 0 2.

(** Its record, the agent it leaves and the draws it takes. *)
Definition logs_ex : list (list transition) :=
  match train_ex_run with Some (Ok logs, _, _) => logs | _ => [] end.

Definition self_ex : SelfPlayAgent :=
  match train_ex_run with Some (_, self', _) => self' | _ => default_agent end.

Definition tick_ex : nat :=
  match train_ex_run with Some (_, _, tick') => tick' | _ => 0 end.

(** An ideal codec for the examples: a file holds a pickled table or
    something that does not deserialize. *)
Definition ideal_dump (data : gmap key dict) : option (gmap key dict) := Some data.

Definition ideal_load (fh : option (gmap key dict)) : result (gmap key dict) :=
  match fh with
  | Some data => Ok data
  | None => Raise UnpicklingError
  end.

(** * Properties *)

(** ** The order of the binary64 comparisons

    [>] on floats is a strict order in which a NaN is comparable to
    nothing. The facts the loop of [max] needs are read off the
    specification of the comparison on [spec_float]. *)

Section FloatOrder.
Local Ltac sf_cases :=
  repeat match goal with
    | s : bool |- _ => destruct s
    end;
  simpl in *; try discriminate; try congruence;
  repeat match goal with
    | H : context [(?a ?= ?b)%Z] |- _ => destruct (Z.compare_spec a b)
    | |- context [(?a ?= ?b)%Z] => destruct (Z.compare_spec a b)
    | H : context [Pos.compare_cont Eq ?a ?b] |- _ =>
        change (Pos.compare_cont Eq a b) with (Pos.compare a b) in *;
        destruct (Pos.compare_spec a b)
    | |- context [Pos.compare_cont Eq ?a ?b] =>
        change (Pos.compare_cont Eq a b) with (Pos.compare a b) in *;
        destruct (Pos.compare_spec a b)
    end;
  simpl in *; try discriminate; try congruence; try lia.

Lemma SFcompare_lt_irrefl x : SFcompare x x ≠ Some Lt.
Proof. destruct x; simpl; intros; sf_cases. Qed.

Lemma SFcompare_not_lt_lt x y z :
  SFcompare x y ≠ Some Lt → SFcompare x z = Some Lt →
  SFcompare z y ≠ Some Lt ∧ SFcompare z y ≠ Some Eq.
Proof. destruct x, y, z; simpl; intros; split; intros; sf_cases. Qed.

Lemma SFcompare_total x y :
  SFcompare x x = Some Eq → SFcompare y y = Some Eq →
  SFcompare x y ≠ Some Lt → SFcompare y x = Some Lt ∨ SFcompare y x = Some Eq.
Proof. destruct x, y; simpl; intros; sf_cases; auto. Qed.

Lemma SFcompare_not_le x y :
  SFcompare x x = Some Eq → SFcompare y y = Some Eq →
  SFcompare x y ≠ Some Lt → SFcompare x y ≠ Some Eq → SFcompare y x = Some Lt.
Proof. destruct x, y; simpl; intros; sf_cases. Qed.

Local Ltac to_spec :=
  rewrite ?ltb_spec, ?leb_spec in *; unfold SFltb, SFleb in *.

Lemma ltb_irrefl x : PrimFloat.ltb x x = false.
Proof.
  to_spec. generalize (SFcompare_lt_irrefl (Prim2SF x)).
  destruct (SFcompare _ _) as [[]|]; congruence.
Qed.

Lemma leb_false_ltb x y : PrimFloat.leb x y = false → PrimFloat.ltb x y = false.
Proof. to_spec. by destruct (SFcompare _ _) as [[]|]. Qed.

(** [m < x] and not [m < y]: then not [x <= y]. *)
Lemma ltb_false_lt_leb m y x :
  PrimFloat.ltb m y = false → PrimFloat.ltb m x = true →
  PrimFloat.leb x y = false.
Proof.
  to_spec. intros Hmy Hmx.
  destruct (SFcompare_not_lt_lt (Prim2SF m) (Prim2SF y) (Prim2SF x)) as [H1 H2].
  - by destruct (SFcompare (Prim2SF m) (Prim2SF y)) as [[]|].
  - by destruct (SFcompare (Prim2SF m) (Prim2SF x)) as [[]|].
  - by destruct (SFcompare (Prim2SF x) (Prim2SF y)) as [[]|].
Qed.

Lemma is_nan_false x :
  PrimFloat.is_nan x = false → SFcompare (Prim2SF x) (Prim2SF x) = Some Eq.
Proof.
  unfold PrimFloat.is_nan. rewrite FloatAxioms.eqb_spec. unfold SFeqb.
  by destruct (SFcompare _ _) as [[]|].
Qed.

(** Without NaN the order is total. *)
Lemma ltb_false_leb x y :
  PrimFloat.is_nan x = false → PrimFloat.is_nan y = false →
  PrimFloat.ltb x y = false → PrimFloat.leb y x = true.
Proof.
  intros Hx%is_nan_false Hy%is_nan_false. to_spec. intros H.
  assert (SFcompare (Prim2SF x) (Prim2SF y) ≠ Some Lt) as Hn
    by (intros E; by rewrite E in H).
  by destruct (SFcompare_total _ _ Hx Hy Hn) as [-> | ->].
Qed.

Lemma leb_false_gt x y :
  PrimFloat.is_nan x = false → PrimFloat.is_nan y = false →
  PrimFloat.leb x y = false → PrimFloat.ltb y x = true.
Proof.
  intros Hx%is_nan_false Hy%is_nan_false. to_spec. intros H.
  by rewrite (SFcompare_not_le _ _ Hx Hy);
    [| intros E; by rewrite E in H ..].
Qed.
End FloatOrder.

(** ** The builtin [max] returns the first maximal item *)

Section Max.
Context {A : Type} (keyf : A → float).

(** Invariant of the loop: the running maximum [m] sits between the items
    [pre] seen before it, none of which reaches its key, and the items
    [mid] seen after it, none of which exceeds its key. *)
Lemma max_loop_split (pre mid rest : list A) (m : A) :
  (∀ y, y ∈ pre → PrimFloat.leb (keyf m) (keyf y) = false) →
  (∀ y, y ∈ mid → PrimFloat.ltb (keyf m) (keyf y) = false) →
  ∃ l1 l2,
    pre ++ m :: mid ++ rest = l1 ++ max_loop keyf m (keyf m) rest :: l2 ∧
    (∀ y, y ∈ l1 →
       PrimFloat.leb (keyf (max_loop keyf m (keyf m) rest)) (keyf y) = false) ∧
    (∀ y, y ∈ l2 →
       PrimFloat.ltb (keyf (max_loop keyf m (keyf m) rest)) (keyf y) = false).
Proof.
  revert pre mid m. induction rest as [|x rest IH]; intros pre mid m Hpre Hmid.
  - exists pre, mid. by rewrite app_nil_r.
  - simpl. destruct (PrimFloat.ltb (keyf m) (keyf x)) eqn:Hlt.
    + destruct (IH (pre ++ m :: mid) [] x) as (l1 & l2 & Heq & H1 & H2).
      * intros y [Hy | [-> | Hy]%elem_of_cons]%elem_of_app.
        -- eapply ltb_false_lt_leb; [|done]. by apply leb_false_ltb, Hpre.
        -- eapply ltb_false_lt_leb; [|done]. apply ltb_irrefl.
        -- eapply ltb_false_lt_leb; [|done]. by apply Hmid.
      * intros y Hy. inversion Hy.
      * exists l1, l2. split; [|done]. rewrite <- Heq. by rewrite <- app_assoc.
    + destruct (IH pre (mid ++ [x]) m) as (l1 & l2 & Heq & H1 & H2); [done | |].
      * intros y [Hy | ->%list_elem_of_singleton]%elem_of_app; auto.
      * exists l1, l2. split; [|done]. rewrite <- Heq. by rewrite <- app_assoc.
Qed.

Lemma py_max_split (l : list A) :
  l ≠ [] →
  ∃ best l1 l2,
    py_max keyf l = Ok best ∧ l = l1 ++ best :: l2 ∧
    (∀ y, y ∈ l1 → PrimFloat.leb (keyf best) (keyf y) = false) ∧
    (∀ y, y ∈ l2 → PrimFloat.ltb (keyf best) (keyf y) = false).
Proof.
  destruct l as [|x rest]; [done|]. intros _.
  destruct (max_loop_split [] [] rest x) as (l1 & l2 & Heq & H1 & H2);
    [intros y Hy; inversion Hy .. |].
  exists (max_loop keyf x (keyf x) rest), l1, l2. by rewrite <- Heq.
Qed.
End Max.

(** ** Legal moves *)

Lemma elem_of_empty_cells_from (i : nat) (brd : board) (m : nat) :
  m ∈ empty_cells_from i brd ↔ i ≤ m ∧ brd !! (m - i) = Some None.
Proof.
  revert i. induction brd as [|v rest IH]; intros i; simpl.
  - rewrite elem_of_nil. split; [done|]. intros [_ Hm]. by destruct (m - i).
  - assert (m ∈ empty_cells_from (S i) rest ↔
            i < m ∧ (v :: rest) !! (m - i) = Some None) as Hrest.
    { rewrite IH. split.
      - intros [? Hm]. split; [lia|].
        by replace (m - i) with (S (m - S i)) by lia.
      - intros [? Hm]. split; [lia|].
        by replace (m - i) with (S (m - S i)) in Hm by lia. }
    destruct (decide (v = None)) as [-> | Hv].
    + rewrite elem_of_cons, Hrest. split.
      * intros [-> | [? ?]]; [|split; [lia | done]].
        split; [lia|]. by rewrite Nat.sub_diag.
      * intros [? Hm]. destruct (decide (m = i)) as [-> | ?]; [by left|].
        right. split; [lia | done].
    + rewrite Hrest. split; [intros [? ?]; split; [lia | done]|].
      intros [? Hm]. split; [|done].
      destruct (decide (m = i)) as [-> | ?]; [|lia].
      rewrite Nat.sub_diag in Hm. simpl in Hm. congruence.
Qed.

(** The legal moves are exactly the indices of the cells holding [" "]. *)
Lemma elem_of_empty_cells (brd : board) (m : nat) :
  m ∈ empty_cells brd ↔ brd !! m = Some None.
Proof.
  unfold empty_cells. rewrite elem_of_empty_cells_from, Nat.sub_0_r.
  split; [by intros [_ ?] | split; [lia | done]].
Qed.

(** They come in ascending index order. *)
Lemma empty_cells_from_sorted (i : nat) (brd : board) :
  StronglySorted lt (empty_cells_from i brd).
Proof.
  revert i. induction brd as [|v rest IH]; intros i; simpl; [constructor|].
  destruct (decide (v = None)); [|apply IH].
  constructor; [apply IH|].
  apply Forall_forall. intros m [? _]%elem_of_empty_cells_from. lia.
Qed.

Lemma empty_cells_split (brd : board) (l1 l2 : list nat) (x m : nat) :
  empty_cells brd = l1 ++ x :: l2 →
  brd !! m = Some None → m < x → m ∈ l1.
Proof.
  intros Heq Hm Hlt. apply elem_of_empty_cells in Hm.
  pose proof (empty_cells_from_sorted 0 brd) as Hs.
  unfold empty_cells in *. rewrite Heq in Hm, Hs.
  apply elem_of_app in Hm as [? | [-> | Hm]%elem_of_cons]; [done | lia |].
  apply StronglySorted_app_1_r in Hs. inversion Hs as [|? ? _ Hall]; subst.
  rewrite Forall_forall in Hall. specialize (Hall _ Hm). lia.
Qed.

(** ** The policy *)

(** Reading [self.q[k]] returns the stored [dict], or the empty one. *)
Lemma q_getitem_fst (tbl : gmap key dict) (k : key) :
  (q_getitem tbl k).1 = default [] (tbl !! k).
Proof. unfold q_getitem. by destruct (tbl !! k). Qed.

Lemma q_getitem_snd (tbl : gmap key dict) (k : key) :
  (q_getitem tbl k).2 =
  match tbl !! k with Some _ => tbl | None => <[k := []]> tbl end.
Proof. unfold q_getitem. by destruct (tbl !! k). Qed.

Lemma q_getitem_lookup (tbl : gmap key dict) (k : key) :
  (q_getitem tbl k).2 !! k = Some (q_getitem tbl k).1.
Proof.
  unfold q_getitem. destruct (tbl !! k) eqn:E; simpl; [done|].
  by rewrite lookup_insert_eq.
Qed.

Lemma q_getitem_lookup_ne (tbl : gmap key dict) (k k' : key) :
  k ≠ k' → (q_getitem tbl k).2 !! k' = tbl !! k'.
Proof.
  intros. unfold q_getitem. destruct (tbl !! k) eqn:E; simpl; [done|].
  by rewrite lookup_insert_ne.
Qed.

(** It creates no stored value: the [dict] it may insert is empty. *)
Lemma q_getitem_entry (tbl : gmap key dict) (k k' : key) (a : nat) :
  entry (q_getitem tbl k).2 k' a = entry tbl k' a.
Proof.
  unfold entry. destruct (decide (k = k')) as [<- | ?].
  - rewrite q_getitem_lookup, q_getitem_fst. by destruct (tbl !! k).
  - by rewrite q_getitem_lookup_ne.
Qed.

Lemma value_of_entry (tbl : gmap key dict) (k : key) (a : nat) :
  value_of tbl k a = default 0%float (entry tbl k a).
Proof.
  unfold value_of, entry, dict_get. destruct (tbl !! k) as [d|]; simpl; [|done].
  by destruct (dict_lookup d a).
Qed.

(** The greedy branch: the key of [max] is the table's estimate. *)
Lemma choose_action_greedy (self : SelfPlayAgent) (brd : board) (player : mark)
    (d : draw) :
  (choose_action self brd player false d).1 =
  (best ← py_max (value_of (q self) (Some (encode_state brd player)))
           (empty_cells brd);
   Ok (best, encode_state brd player)).
Proof.
  unfold choose_action. simpl.
  pose proof (q_getitem_fst (q self) (Some (encode_state brd player))) as Hv.
  destruct (q_getitem _ _) as [values q1]. simpl in *. subst values. done.
Qed.

(** C2. On a board with an Empty cell, [choose_action] with [explore=False]
    returns a legal move [best] whose estimate no legal move exceeds and no
    legal move of lower index reaches (the first maximal move in ascending
    order), missing entries counting as 0.0. When no estimate is a NaN this
    is the usual argmax: every legal move is [<=] [best], every earlier one
    [<]. When all estimates are 0.0, [best] is the lowest Empty index. *)
Theorem choose_action_greedy_first_max (self : SelfPlayAgent) (brd : board)
    (player : mark) (d : draw) :
  (∃ i, brd !! i = Some None) →
  ∃ best,
    (choose_action self brd player false d).1 =
      Ok (best, encode_state brd player) ∧
    brd !! best = Some None ∧
    (∀ m, brd !! m = Some None →
       PrimFloat.ltb (value_of (q self) (Some (encode_state brd player)) best)
                     (value_of (q self) (Some (encode_state brd player)) m) = false) ∧
    (∀ m, brd !! m = Some None → m < best →
       PrimFloat.leb (value_of (q self) (Some (encode_state brd player)) best)
                     (value_of (q self) (Some (encode_state brd player)) m) = false) ∧
    ((∀ m, brd !! m = Some None →
        PrimFloat.is_nan (value_of (q self) (Some (encode_state brd player)) m) = false) →
     (∀ m, brd !! m = Some None →
        PrimFloat.leb (value_of (q self) (Some (encode_state brd player)) m)
                      (value_of (q self) (Some (encode_state brd player)) best) = true) ∧
     (∀ m, brd !! m = Some None → m < best →
        PrimFloat.ltb (value_of (q self) (Some (encode_state brd player)) m)
                      (value_of (q self) (Some (encode_state brd player)) best) = true)) ∧
    ((∀ m, brd !! m = Some None →
        value_of (q self) (Some (encode_state brd player)) m = 0%float) →
     ∀ m, brd !! m = Some None → best ≤ m).
Proof.
  intros [i Hi]. set (v := value_of (q self) (Some (encode_state brd player))).
  assert (empty_cells brd ≠ []) as Hne.
  { apply elem_of_empty_cells in Hi. intros E. rewrite E in Hi. inversion Hi. }
  destruct (py_max_split v (empty_cells brd) Hne)
    as (best & l1 & l2 & Hmax & Hsplit & Hl1 & Hl2).
  assert (brd !! best = Some None) as Hbest.
  { apply elem_of_empty_cells. rewrite Hsplit. set_solver. }
  assert (∀ m, brd !! m = Some None → m < best →
               PrimFloat.leb (v best) (v m) = false) as Hfirst.
  { intros m Hm Hlt. apply Hl1. by eapply empty_cells_split. }
  assert (∀ m, brd !! m = Some None →
               PrimFloat.ltb (v best) (v m) = false) as Hmaxi.
  { intros m Hm. apply elem_of_empty_cells in Hm. rewrite Hsplit in Hm.
    apply elem_of_app in Hm as [Hm | [-> | Hm]%elem_of_cons].
    - by apply leb_false_ltb, Hl1.
    - apply ltb_irrefl.
    - by apply Hl2. }
  exists best. split_and!; try done.
  - rewrite choose_action_greedy. fold v. by rewrite Hmax.
  - intros Hnan. split.
    + intros m Hm. apply ltb_false_leb; auto.
    + intros m Hm Hlt. apply leb_false_gt; auto.
  - intros Hzero m Hm. destruct (decide (best ≤ m)) as [|Hgt]; [done|].
    assert (m < best) as Hlt by lia.
    specialize (Hfirst m Hm Hlt). rewrite (Hzero m Hm), (Hzero best Hbest) in Hfirst.
    vm_compute in Hfirst. discriminate.
Qed.

Lemma choose_action_greedy_first_max_witness :
  (∃ i, board_ex !! i = Some None) ∧
  ∃ best,
    (choose_action agent_ex board_ex X false draw_ex).1 =
      Ok (best, encode_state board_ex X) ∧
    board_ex !! best = Some None.
Proof.
  split; [by exists 1|].
  destruct (choose_action_greedy_first_max agent_ex board_ex X draw_ex)
    as (best & Hret & Hlegal & _); [by exists 1|].
  by exists best.
Defined.

(** The tie between the moves 3 and 4 goes to the lower index, whatever
    their order in the stored [dict]. *)
Example choose_action_ex :
  (choose_action agent_ex board_ex X false draw_ex).1 =
  Ok (3, [lP; l_; lE; l_; l_; l_; l_; l_; l_]).
Proof. vm_compute. reflexivity. Qed.

(** [best_move] of a fresh agent on the empty board is cell 0. *)
Example best_move_fresh :
  (best_move default_agent (replicate 9 None) X).1 = Ok 0.
Proof. vm_compute. reflexivity. Qed.

(** What [choose_action] does to the table: nothing on the exploring branch
    or when the encoded state is already a key; on the greedy branch an
    unseen state becomes a key with an empty [dict] (the [defaultdict]
    lookup [self.q[state]]), also when [max] then raises on a full board. *)
Lemma choose_action_q (self : SelfPlayAgent) (brd : board) (player : mark)
    (explore : bool) (d : draw) :
  q (choose_action self brd player explore d).2 =
  if explore && PrimFloat.ltb (rand d) (epsilon self) then q self
  else match q self !! Some (encode_state brd player) with
       | Some _ => q self
       | None => <[Some (encode_state brd player) := []]> (q self)
       end.
Proof.
  unfold choose_action.
  destruct (explore && PrimFloat.ltb (rand d) (epsilon self)); [done|].
  rewrite <- q_getitem_snd. by destruct (q_getitem _ _).
Qed.

(** C4, as the code has it. [choose_action] changes and creates no stored
    value: every (state, action) entry, present or absent, stays as it was,
    and so do the [dict] of every existing key and the agent's parameters.
    The table itself is unchanged on the exploring branch and when the
    encoded state is already a key; otherwise the encoded state is added as
    a key with an empty [dict]. *)
Theorem choose_action_preserves_entries (self : SelfPlayAgent) (brd : board)
    (player : mark) (explore : bool) (d : draw) :
  (∀ k a, entry (q (choose_action self brd player explore d).2) k a =
          entry (q self) k a) ∧
  (∀ k a, value_of (q (choose_action self brd player explore d).2) k a =
          value_of (q self) k a) ∧
  (∀ k, is_Some (q self !! k) →
        q (choose_action self brd player explore d).2 !! k = q self !! k) ∧
  q (choose_action self brd player explore d).2 =
    (if explore && PrimFloat.ltb (rand d) (epsilon self) then q self
     else match q self !! Some (encode_state brd player) with
          | Some _ => q self
          | None => <[Some (encode_state brd player) := []]> (q self)
          end) ∧
  alpha (choose_action self brd player explore d).2 = alpha self ∧
  gamma (choose_action self brd player explore d).2 = gamma self ∧
  epsilon (choose_action self brd player explore d).2 = epsilon self.
Proof.
  assert (∀ k a, entry (q (choose_action self brd player explore d).2) k a =
                 entry (q self) k a) as Hentry.
  { intros k a. rewrite choose_action_q.
    destruct (explore && PrimFloat.ltb (rand d) (epsilon self)); [done|].
    destruct (q self !! Some (encode_state brd player)) eqn:E; [done|].
    unfold entry. destruct (decide (Some (encode_state brd player) = k)) as [<- | ?].
    - by rewrite lookup_insert_eq, E.
    - by rewrite lookup_insert_ne. }
  split_and!; try done.
  - intros k a. by rewrite !value_of_entry, Hentry.
  - intros k [dk Hk]. rewrite choose_action_q.
    destruct (explore && PrimFloat.ltb (rand d) (epsilon self)); [done|].
    destruct (q self !! Some (encode_state brd player)) eqn:E; [done|].
    rewrite lookup_insert_ne; [done | congruence].
  - apply choose_action_q.
  - unfold choose_action.
    destruct (explore && PrimFloat.ltb (rand d) (epsilon self)); [done|].
    by destruct (q_getitem _ _).
  - unfold choose_action.
    destruct (explore && PrimFloat.ltb (rand d) (epsilon self)); [done|].
    by destruct (q_getitem _ _).
  - unfold choose_action.
    destruct (explore && PrimFloat.ltb (rand d) (epsilon self)); [done|].
    by destruct (q_getitem _ _).
Qed.

(** C4, as stated, fails: the greedy branch on a fresh agent leaves a table
    with one key, the encoding of the board. *)
Lemma choose_action_creates_key :
  q default_agent = ∅ ∧
  q (choose_action default_agent (replicate 9 None) X false draw_ex).2 =
    {[ Some (replicate 9 l_) := [] ]} ∧
  q (choose_action default_agent (replicate 9 None) X false draw_ex).2 ≠
    q default_agent.
Proof.
  split; [done|]. rewrite choose_action_q. simpl. split; [done|].
  intros E. apply (f_equal (λ m, m !! Some (replicate 9 l_))) in E.
  vm_compute in E. discriminate.
Qed.

(** ** The temporal-difference update *)

Lemma dict_lookup_set_eq (d : dict) (k : nat) (v : float) :
  dict_lookup (dict_set d k v) k = Some v.
Proof.
  induction d as [|[k' v'] d IH]; simpl.
  - by rewrite decide_True.
  - destruct (decide (k' = k)) as [-> | Hne]; simpl.
    + by rewrite decide_True.
    + by rewrite decide_False.
Qed.

Lemma dict_lookup_set_ne (d : dict) (k k' : nat) (v : float) :
  k ≠ k' → dict_lookup (dict_set d k v) k' = dict_lookup d k'.
Proof.
  intros Hne. induction d as [|[k0 v0] d IH]; simpl.
  - by rewrite decide_False.
  - destruct (decide (k0 = k)) as [-> | Hne0]; simpl.
    + by rewrite !decide_False.
    + destruct (decide (k0 = k')); [done | apply IH].
Qed.

(** [next_best_of] is the maximum of the stored values: one of them, which
    none exceeds; 0.0 when there is none. *)
Lemma next_best_of_max (d : dict) :
  match dict_values d with
  | [] => next_best_of d = 0%float
  | _ :: _ =>
      next_best_of d ∈ dict_values d ∧
      (∀ v, v ∈ dict_values d → PrimFloat.ltb (next_best_of d) v = false) ∧
      ((∀ v, v ∈ dict_values d → PrimFloat.is_nan v = false) →
       ∀ v, v ∈ dict_values d → PrimFloat.leb v (next_best_of d) = true)
  end.
Proof.
  unfold next_best_of. destruct (dict_values d) as [|x rest] eqn:E; [done|].
  destruct (max_loop_split id [] [] rest x) as (l1 & l2 & Heq & H1 & H2);
    [intros y Hy; inversion Hy .. |].
  simpl in Heq. unfold id in *.
  set (nb := max_loop (λ v, v) x x rest) in *.
  assert (nb ∈ x :: rest) as Hin by (rewrite Heq; set_solver).
  assert (∀ v, v ∈ x :: rest → PrimFloat.ltb nb v = false) as Hmax.
  { intros v Hv. rewrite Heq in Hv.
    apply elem_of_app in Hv as [Hv | [-> | Hv]%elem_of_cons].
    - by apply leb_false_ltb, H1.
    - apply ltb_irrefl.
    - by apply H2. }
  split_and!; [done | done |].
  intros Hnan v Hv. apply ltb_false_leb; auto.
Qed.

Lemma q_getitem_default (tbl : gmap key dict) (k k' : key) :
  default [] ((q_getitem tbl k).2 !! k') = default [] (tbl !! k').
Proof.
  destruct (decide (k = k')) as [<- | ?].
  - by rewrite q_getitem_lookup, q_getitem_fst.
  - by rewrite q_getitem_lookup_ne.
Qed.

(** The table after [update], in closed form. *)
Lemma update_q (self : SelfPlayAgent) (st : key) (action : nat)
    (reward : float) (next_state : key) (done : bool) :
  q (update self st action reward next_state done) =
  <[st := dict_set (default [] (q self !! st)) action
            (PrimFloat.add (value_of (q self) st action)
               (PrimFloat.mul (alpha self)
                  (PrimFloat.sub
                     (if done then reward
                      else PrimFloat.sub reward
                             (PrimFloat.mul (gamma self)
                                (next_best_of (default [] (q self !! next_state)))))
                     (value_of (q self) st action))))]>
    (if done then (q_getitem (q self) st).2
     else (q_getitem (q_getitem (q self) st).2 next_state).2).
Proof.
  unfold update, value_of.
  pose proof (q_getitem_fst (q self) st) as Hv.
  destruct (q_getitem (q self) st) as [values q1] eqn:E1. simpl in Hv. subst values.
  destruct done; simpl; [done|].
  pose proof (q_getitem_fst q1 next_state) as Hn.
  destruct (q_getitem q1 next_state) as [next_values q2] eqn:E2.
  simpl in *. subst next_values.
  replace q1 with (q_getitem (q self) st).2 by by rewrite E1.
  by rewrite q_getitem_default.
Qed.

(** C1. [update] writes [old + alpha * (target - old)] to
    [table[state][action]], where [old] is the prior entry or 0.0, [target]
    is [reward] when [done] and [reward - gamma * next_best] otherwise, and
    [next_best] is the maximum of the values stored under [next_state]:
    0.0 when there is none, otherwise a stored value that no stored value
    exceeds (and that is [>=] all of them when none is a NaN). *)
Theorem update_writes (self : SelfPlayAgent) (st : key) (action : nat)
    (reward : float) (next_state : key) (done : bool) :
  entry (q (update self st action reward next_state done)) st action =
    Some (PrimFloat.add (value_of (q self) st action)
            (PrimFloat.mul (alpha self)
               (PrimFloat.sub
                  (if done then reward
                   else PrimFloat.sub reward
                          (PrimFloat.mul (gamma self)
                             (next_best_of (default [] (q self !! next_state)))))
                  (value_of (q self) st action)))) ∧
  match stored_values (q self) next_state with
  | [] => next_best_of (default [] (q self !! next_state)) = 0%float
  | _ :: _ =>
      next_best_of (default [] (q self !! next_state))
        ∈ stored_values (q self) next_state ∧
      (∀ v, v ∈ stored_values (q self) next_state →
         PrimFloat.ltb (next_best_of (default [] (q self !! next_state))) v = false) ∧
      ((∀ v, v ∈ stored_values (q self) next_state → PrimFloat.is_nan v = false) →
       ∀ v, v ∈ stored_values (q self) next_state →
         PrimFloat.leb v (next_best_of (default [] (q self !! next_state))) = true)
  end.
Proof.
  split; [|apply next_best_of_max].
  rewrite update_q. unfold entry. rewrite lookup_insert_eq. simpl.
  apply dict_lookup_set_eq.
Qed.

(** [update] touches no other (state, action) pair and no parameter. *)
Lemma update_frame (self : SelfPlayAgent) (st : key) (action : nat)
    (reward : float) (next_state : key) (done : bool) (k : key) (a : nat) :
  (k, a) ≠ (st, action) →
  entry (q (update self st action reward next_state done)) k a =
  entry (q self) k a.
Proof.
  intros Hne. rewrite update_q. unfold entry.
  destruct (decide (st = k)) as [<- | Hk].
  - rewrite lookup_insert_eq. simpl.
    rewrite dict_lookup_set_ne by congruence.
    by destruct (q self !! st).
  - rewrite lookup_insert_ne by done.
    destruct done; fold (entry (q_getitem (q self) st).2 k a);
      [|fold (entry (q_getitem (q_getitem (q self) st).2 next_state).2 k a)];
      by rewrite !q_getitem_entry.
Qed.

(** The spec's terminal example: alpha 0.2, old 0.0, reward 1.0 give 0.2. *)
Example update_terminal_ex :
  entry (q (update default_agent (Some (replicate 9 l_)) 4 1 None true))
        (Some (replicate 9 l_)) 4 = Some 0.2%float.
Proof. vm_compute. reflexivity. Qed.

(** ** The state encoder *)

Lemma encode_cell_swap (A B : mark) (v : cell) :
  A ≠ B → encode_cell B A v = swap_label (encode_cell A B v).
Proof.
  intros Hne. unfold encode_cell.
  destruct v as [[]|], A, B; try done.
Qed.

Lemma opponent_of_distinct (A B : mark) :
  A ≠ B → (if decide (A = X) then O else X) = B.
Proof. by destruct A, B. Qed.

(** C3. For the two distinct marks [A] and [B], the encoding of a board for
    [B] is the encoding for [A] with ["P"] and ["E"] exchanged at every
    cell (and conversely), and a cell that is Empty in the board is
    labelled ["_"] in both. *)
Theorem encode_state_swap (brd : board) (A B : mark) :
  A ≠ B →
  encode_state brd B = swap_label <$> encode_state brd A ∧
  encode_state brd A = swap_label <$> encode_state brd B ∧
  length (encode_state brd A) = length brd ∧
  (∀ i, encode_state brd A !! i = Some lP ↔ encode_state brd B !! i = Some lE) ∧
  (∀ i, encode_state brd A !! i = Some lE ↔ encode_state brd B !! i = Some lP) ∧
  (∀ i, encode_state brd A !! i = Some l_ ↔ encode_state brd B !! i = Some l_) ∧
  (∀ i, brd !! i = Some None →
        encode_state brd A !! i = Some l_ ∧ encode_state brd B !! i = Some l_).
Proof.
  intros Hne.
  assert (∀ A B, A ≠ B → encode_state brd B = swap_label <$> encode_state brd A)
    as Hswap.
  { clear. intros A B Hne. unfold encode_state.
    rewrite (opponent_of_distinct A B), (opponent_of_distinct B A) by done.
    rewrite <- list_fmap_compose. apply list_fmap_ext.
    intros i v _. by apply encode_cell_swap. }
  assert (∀ i l, encode_state brd B !! i = Some (swap_label l) ↔
                 encode_state brd A !! i = Some l) as Hcell.
  { intros i l. rewrite (Hswap A B Hne), list_lookup_fmap.
    destruct (encode_state brd A !! i) as [l'|]; simpl; [|done].
    split; [|by intros [= ->]]. intros [= E]. by destruct l, l'. }
  split_and!.
  - by apply Hswap.
  - by apply Hswap.
  - unfold encode_state. by rewrite length_fmap.
  - intros i. by rewrite <- (Hcell i lP).
  - intros i. by rewrite <- (Hcell i lE).
  - intros i. by rewrite <- (Hcell i l_).
  - intros i Hi. unfold encode_state. rewrite !list_lookup_fmap, Hi. done.
Qed.

Lemma encode_state_swap_witness :
  X ≠ O ∧
  encode_state board_ex O = swap_label <$> encode_state board_ex X.
Proof.
  split; [done|]. by destruct (encode_state_swap board_ex X O) as [H _].
Defined.

Example encode_state_ex :
  encode_state board_ex X = [lP; l_; lE; l_; l_; l_; l_; l_; l_] ∧
  encode_state board_ex O = [lE; l_; lP; l_; l_; l_; l_; l_; l_].
Proof. done. Qed.

(** ** The winner *)

Lemma getitem_lookup {A} (l : list A) (i : nat) (v : A) :
  l !! i = Some v → getitem l i = Ok v.
Proof. unfold getitem. by intros ->. Qed.

(** One line holds one mark at most. *)
Lemma line_full_inj (brd : board) (m1 m2 : mark) (line : nat * nat * nat) :
  line_full brd m1 line → line_full brd m2 line → m1 = m2.
Proof. intros [H1 _] [H2 _]. congruence. Qed.

(** The loop returns the mark of the first full line, [None] when no line
    is full, and does not raise when the lines are within the board. *)
Lemma check_lines_first (brd : board) (lines : list (nat * nat * nat)) :
  Forall (line_in_range brd) lines →
  (∃ l1 line l2 m,
      lines = l1 ++ line :: l2 ∧ line_full brd m line ∧
      (∀ l m', l ∈ l1 → ¬ line_full brd m' l) ∧
      check_lines brd lines = Ok (Some m)) ∨
  ((∀ l m', l ∈ lines → ¬ line_full brd m' l) ∧
   check_lines brd lines = Ok None).
Proof.
  induction lines as [|[[a b] c] rest IH]; intros Hrange.
  - right. split; [|done]. intros l m' Hl. inversion Hl.
  - apply Forall_cons in Hrange as [(Ha & Hb & Hc) Hrest]. simpl in Ha, Hb, Hc.
    apply lookup_lt_is_Some in Ha as [va Ha], Hb as [vb Hb], Hc as [vc Hc].
    assert ((∃ m, line_full brd m (a, b, c) ∧
                  check_lines brd ((a, b, c) :: rest) = Ok (Some m)) ∨
            ((∀ m', ¬ line_full brd m' (a, b, c)) ∧
             check_lines brd ((a, b, c) :: rest) = check_lines brd rest))
      as [(m & Hfull & Hret) | [Hnot Hret]].
    { simpl. rewrite (getitem_lookup _ _ _ Ha). simpl.
      destruct va as [m|].
      - rewrite (getitem_lookup _ _ _ Hb). simpl.
        destruct (decide (Some m = vb)) as [<- | Hne].
        + rewrite (getitem_lookup _ _ _ Hc). simpl.
          destruct (decide (Some m = vc)) as [<- | Hne].
          * left. by exists m.
          * right. split; [|done]. intros m' (H1 & H2 & H3). simpl in *. congruence.
        + right. split; [|done]. intros m' (H1 & H2 & H3). simpl in *. congruence.
      - right. split; [|done]. intros m' (H1 & H2 & H3). simpl in *. congruence. }
    + left. exists [], (a, b, c), rest, m. split_and!; try done.
      intros l m' Hl. inversion Hl.
    + rewrite Hret. destruct (IH Hrest) as
        [(l1 & line & l2 & m & -> & Hfull & Hfirst & Hr) | [Hnone Hr]].
      * left. exists ((a, b, c) :: l1), line, l2, m. split_and!; try done.
        intros l m' [-> | Hl]%elem_of_cons; [apply Hnot | by apply Hfirst].
      * right. split; [|done].
        intros l m' [-> | Hl]%elem_of_cons; [apply Hnot | by apply Hnone].
Qed.

Lemma WIN_LINES_in_range (brd : board) :
  length brd = 9 → Forall (line_in_range brd) WIN_LINES.
Proof.
  intros Hlen. unfold WIN_LINES, line_in_range. rewrite Hlen.
  repeat constructor; simpl; lia.
Qed.

(** On a board of nine cells [check_winner] does not raise; it returns the
    mark of the first full line of [WIN_LINES], or [None] when none is full. *)
Lemma check_winner_first (brd : board) :
  length brd = 9 →
  (∃ l1 line l2 m,
      WIN_LINES = l1 ++ line :: l2 ∧ line_full brd m line ∧
      (∀ l m', l ∈ l1 → ¬ line_full brd m' l) ∧
      check_winner brd = Ok (Some m)) ∨
  ((∀ l m', l ∈ WIN_LINES → ¬ line_full brd m' l) ∧
   check_winner brd = Ok None).
Proof. intros Hlen. by apply check_lines_first, WIN_LINES_in_range. Qed.

(** Two splittings of one list: the two pivots are the same element, or one
    of them lies ahead of the other. *)
Lemma app_cons_pivot {A} (l1 l1' l2 l2' : list A) (x x' : A) :
  l1 ++ x :: l2 = l1' ++ x' :: l2' → x ∈ l1' ∨ x' ∈ l1 ∨ x = x'.
Proof.
  revert l1'. induction l1 as [|a l1 IH]; intros [|a' l1']; simpl;
    intros [= -> Hrest].
  - by right; right.
  - left. apply list_elem_of_here.
  - right; left. apply list_elem_of_here.
  - destruct (IH _ Hrest) as [H | [H | H]].
    + left. by apply list_elem_of_further.
    + right; left. by apply list_elem_of_further.
    + by right; right.
Qed.

(** C7, amended. On every board (nine cells) [check_winner] returns a result
    without raising. It returns the mark [m] exactly when [m] fills the
    first full line in the order of [WIN_LINES]; on a board whose full lines
    all carry one mark this is: exactly when some line is full of [m]. It
    returns some mark exactly when some line is full of one mark, and [None]
    exactly when no line is full. *)
Theorem check_winner_first_full_line (brd : board) :
  length brd = 9 →
  (∃ r, check_winner brd = Ok r) ∧
  (∀ m, check_winner brd = Ok (Some m) ↔
        ∃ l1 line l2,
          WIN_LINES = l1 ++ line :: l2 ∧ line_full brd m line ∧
          ∀ l m', l ∈ l1 → ¬ line_full brd m' l) ∧
  ((∀ line1 line2 m1 m2,
       line1 ∈ WIN_LINES → line2 ∈ WIN_LINES →
       line_full brd m1 line1 → line_full brd m2 line2 → m1 = m2) →
   ∀ m, check_winner brd = Ok (Some m) ↔
        ∃ line, line ∈ WIN_LINES ∧ line_full brd m line) ∧
  ((∃ m, check_winner brd = Ok (Some m)) ↔
   (∃ line m, line ∈ WIN_LINES ∧ line_full brd m line)) ∧
  (check_winner brd = Ok None ↔
   (∀ line m, line ∈ WIN_LINES → ¬ line_full brd m line)).
Proof.
  intros Hlen.
  destruct (check_winner_first brd Hlen) as
    [(l1 & line & l2 & m & Hsplit & Hfull & Hfirst & Hr) | [Hnone Hr]].
  - assert (line ∈ WIN_LINES) as Hin by (rewrite Hsplit; set_solver).
    rewrite Hr. split_and!.
    + by eexists.
    + intros m0. split.
      * intros [= <-]. by exists l1, line, l2.
      * intros (l1' & line' & l2' & Hsplit' & Hfull' & Hfirst').
        rewrite Hsplit in Hsplit'.
        destruct (app_cons_pivot _ _ _ _ _ _ Hsplit') as [H | [H | <-]].
        -- by destruct (Hfirst' line m H).
        -- by destruct (Hfirst line' m0 H).
        -- by rewrite (line_full_inj brd m m0 line Hfull Hfull').
    + intros Hone m0. split.
      * intros [= <-]. by exists line.
      * intros (line' & Hin' & Hfull').
        by rewrite (Hone line line' m m0 Hin Hin' Hfull Hfull').
    + split; [intros _; by exists line, m | intros _; by exists m].
    + split; [done|]. intros Hnone. by destruct (Hnone line m Hin).
  - rewrite Hr. split_and!.
    + by eexists.
    + intros m0. split; [done|].
      intros (l1' & line' & l2' & Hsplit' & Hfull' & _).
      destruct (Hnone line' m0); [rewrite Hsplit'; set_solver | done].
    + intros _ m0. split; [done|]. intros (line' & Hin' & Hfull').
      by destruct (Hnone line' m0 Hin').
    + split; [by intros [m [=]] |]. intros (line & m & Hin & Hfull).
      by destruct (Hnone line m Hin).
    + split; [|done]. intros _ line m Hin. by apply Hnone.
Qed.

Lemma check_winner_first_full_line_witness :
  length board_xo = 9 ∧
  (check_winner board_xo = Ok (Some X) ↔
   ∃ l1 line l2,
     WIN_LINES = l1 ++ line :: l2 ∧ line_full board_xo X line ∧
     ∀ l m', l ∈ l1 → ¬ line_full board_xo m' l).
Proof.
  split; [done|].
  destruct (check_winner_first_full_line board_xo) as (_ & H & _); [done|].
  exact (H X).
Defined.

(** C7, as stated, fails: on [board_xo] the line (3, 4, 5) is full of O,
    yet [check_winner] returns X, the mark of the first full line (0, 1, 2);
    so "returns the mark iff some line is full of that mark" is false for
    the mark O. *)
Lemma check_winner_not_per_mark :
  length board_xo = 9 ∧
  (3, 4, 5) ∈ WIN_LINES ∧ line_full board_xo O (3, 4, 5) ∧
  check_winner board_xo = Ok (Some X) ∧
  ¬ (∀ m, check_winner board_xo = Ok (Some m) ↔
          ∃ line, line ∈ WIN_LINES ∧ line_full board_xo m line).
Proof.
  assert ((3, 4, 5) ∈ WIN_LINES) as Hin by (unfold WIN_LINES; set_solver).
  assert (line_full board_xo O (3, 4, 5)) as Hfull by done.
  split_and!; try done.
  intros Hall. destruct (Hall O) as [_ Hback].
  assert (check_winner board_xo = Ok (Some O)) as Hr
    by (apply Hback; by exists (3, 4, 5)).
  discriminate Hr.
Qed.

Example check_winner_ex :
  check_winner board_xo = Ok (Some X) ∧ check_winner board_ex = Ok None.
Proof. done. Qed.

(** A board shorter than a line reaches raises [IndexError]. *)
Example check_winner_short : check_winner [Some X; Some X] = Raise IndexError.
Proof. done. Qed.

(** ** Placing a mark *)

Lemma is_full_from (i : nat) (brd : board) :
  is_full brd = true ↔ empty_cells_from i brd = [].
Proof.
  revert i. induction brd as [|v rest IH]; intros i; simpl; [done|].
  destruct (decide (v = None)) as [-> | Hv].
  - by rewrite bool_decide_eq_false_2 by (by intros ?).
  - rewrite bool_decide_eq_true_2 by done. apply IH.
Qed.

(** [is_full] holds exactly when there is no legal move. *)
Lemma is_full_empty_cells (brd : board) :
  is_full brd = true ↔ empty_cells brd = [].
Proof. apply is_full_from. Qed.

(** A mark placed on an Empty cell removes one legal move. *)
Lemma empty_cells_from_insert (brd : board) (a i : nat) (p : mark) :
  brd !! a = Some None →
  length (empty_cells_from i (<[a := Some p]> brd)) + 1 =
  length (empty_cells_from i brd).
Proof.
  revert a i. induction brd as [|v rest IH]; intros a i Ha; [done|].
  destruct a as [|a]; simpl in *.
  - injection Ha as ->. simpl. lia.
  - destruct (decide (v = None)); simpl; rewrite <- (IH a (S i) Ha); lia.
Qed.

(** On a board without a full line, a line completed by a move belongs to
    the mover. *)
Lemma line_full_insert (brd : board) (a : nat) (p m : mark)
    (line : nat * nat * nat) :
  brd !! a = Some None →
  (∀ m', ¬ line_full brd m' line) →
  line_full (<[a := Some p]> brd) m line → m = p.
Proof.
  destruct line as [[x y] z]. unfold line_full. simpl.
  intros Ha Hnot (H1 & H2 & H3).
  assert (a < length brd) as Hlt by by eapply lookup_lt_Some.
  destruct (decide (a = x)) as [-> | N1];
    [rewrite list_lookup_insert_eq in H1 by done; congruence|].
  destruct (decide (a = y)) as [-> | N2];
    [rewrite list_lookup_insert_eq in H2 by done; congruence|].
  destruct (decide (a = z)) as [-> | N3];
    [rewrite list_lookup_insert_eq in H3 by done; congruence|].
  rewrite list_lookup_insert_ne in H1, H2, H3 by done.
  by destruct (Hnot m).
Qed.

(** ** One call of [choose_action] *)

(** [random.choice] returns an item of a non-empty sequence. *)
Lemma random_choice_elem {A} (l : list A) (d : draw) :
  l ≠ [] → ∃ x, random_choice l d = Ok x ∧ x ∈ l.
Proof.
  intros Hne. unfold random_choice.
  assert (pick d mod length l < length l) as Hlt.
  { apply Nat.mod_upper_bound. destruct l; [done | simpl; lia]. }
  apply lookup_lt_is_Some in Hlt as [x Hx].
  exists x. rewrite (getitem_lookup _ _ _ Hx).
  split; [by destruct l | by eapply list_elem_of_lookup_2].
Qed.

(** Whatever the branch, on a board with a legal move [choose_action]
    returns one, with the encoding of the board for the player. *)
Lemma choose_action_legal (self : SelfPlayAgent) (brd : board) (player : mark)
    (explore : bool) (d : draw) :
  empty_cells brd ≠ [] →
  ∃ action,
    (choose_action self brd player explore d).1 =
      Ok (action, encode_state brd player) ∧
    brd !! action = Some None.
Proof.
  intros Hne. unfold choose_action.
  destruct (explore && PrimFloat.ltb (rand d) (epsilon self)).
  - destruct (random_choice_elem (empty_cells brd) d Hne) as (action & Hr & Hin).
    exists action. simpl fst. rewrite Hr. split; [done|].
    by apply elem_of_empty_cells.
  - destruct (q_getitem _ _) as [values q1].
    destruct (py_max_split (estimate values) (empty_cells brd) Hne)
      as (best & l1 & l2 & Hmax & Hsplit & _).
    exists best. simpl fst. rewrite Hmax. split; [done|].
    apply elem_of_empty_cells. rewrite Hsplit. set_solver.
Qed.

(** ** The training loop *)

Lemma check_winner_no_winner (brd : board) :
  length brd = 9 → check_winner brd = Ok None → no_winner brd.
Proof.
  intros Hlen Hr.
  destruct (check_winner_first brd Hlen) as
    [(l1 & line & l2 & m & _ & _ & _ & Hr') | [Hnone _]].
  - rewrite Hr in Hr'. done.
  - intros line m Hin. by apply Hnone.
Qed.

(** On a board of nine cells [check_winner] raises nothing. *)
Lemma check_winner_total (brd : board) :
  length brd = 9 → ∃ r, check_winner brd = Ok r.
Proof.
  intros Hlen.
  destruct (check_winner_first brd Hlen) as
    [(l1 & line & l2 & m & _ & _ & _ & Hr) | [_ Hr]]; by eexists.
Qed.

(** The loop of an episode, started on a board of nine cells without a full
    line and with a legal move: it raises nothing, it stops within as many
    passes as there are Empty cells, and its record is an [episode_ok]. *)
Lemma play_spec (fuel : nat) (rng : nat → draw) (self : SelfPlayAgent)
    (tick : nat) (brd : board) (player : mark) (log : list transition) :
  length brd = 9 → no_winner brd → empty_cells brd ≠ [] →
  match play fuel rng self tick brd player log with
  | None => fuel < length (empty_cells brd)
  | Some (Ok l, _, _) => ∃ log', l = log ++ log' ∧ episode_ok brd player log'
  | Some (Raise _, _, _) => False
  end.
Proof.
  revert self tick brd player log.
  induction fuel as [|fuel IH]; intros self tick brd player log Hlen Hnow Hne.
  - simpl. destruct (empty_cells brd); [done | simpl; lia].
  - cbn [play].
    destruct (choose_action_legal self brd player true (rng tick) Hne)
      as (action & Hch & Hlegal).
    destruct (choose_action self brd player true (rng tick)) as [r self1].
    simpl in Hch. subst r.
    assert (action < length brd) as Hlt by by eapply lookup_lt_Some.
    unfold setitem. rewrite decide_True by done.
    set (brd1 := <[action := Some player]> brd).
    assert (length brd1 = 9) as Hlen1 by (unfold brd1; by rewrite length_insert).
    assert (length (empty_cells brd1) + 1 = length (empty_cells brd)) as Hcount
      by by apply empty_cells_from_insert.
    assert (∀ line m, line ∈ WIN_LINES → line_full brd1 m line → m = player)
      as Hmover.
    { intros line m Hin Hfull. eapply line_full_insert; [done | | done].
      intros m'. by apply Hnow. }
    destruct (check_winner_total brd1 Hlen1) as [winner Hw].
    rewrite Hw.
    destruct (bool_decide (is_Some winner) || is_full brd1) eqn:Hdone.
    + eexists. split; [reflexivity|]. simpl. by split_and!.
    + apply orb_false_iff in Hdone as [Hnone Hfull].
      assert (winner = None) as ->.
      { apply bool_decide_eq_false in Hnone. destruct winner; [|done].
        by destruct Hnone. }
      assert (empty_cells brd1 ≠ []) as Hne1.
      { intros E%is_full_empty_cells. congruence. }
      specialize (IH
        (update self1 (Some (encode_state brd player)) action
           (if decide (None = Some player) then 1 else 0)%float
           (Some (encode_state brd1 (if decide (player = X) then O else X)))
           false)
        (S tick) brd1 (other player)
        (log ++ [{| t_mover := player; t_before := brd; t_action := action;
                    t_state := encode_state brd player; t_after := brd1;
                    t_winner := None; t_done := false;
                    t_reward := if decide (None = Some player) then 1 else 0;
                    t_next_state :=
                      Some (encode_state brd1
                              (if decide (player = X) then O else X)) |}])
        Hlen1 (check_winner_no_winner brd1 Hlen1 Hw) Hne1).
      unfold other in IH at 1.
      destruct (play fuel rng _ (S tick) brd1 _ _) as [[[[l|e] self'] tick']|];
        [| done | lia].
      destruct IH as (log' & -> & Hep).
      eexists. split; [rewrite <- app_assoc; reflexivity|].
      simpl. split_and!; try done.
      by destruct log' as [|t' rest'].
Qed.

Lemma episode_ok_head (brd : board) (player : mark) (log : list transition) :
  episode_ok brd player log →
  ∃ t rest, log = t :: rest ∧ t_before t = brd ∧ t_mover t = player.
Proof. destruct log as [|t rest]; [done|]. intros (? & ? & _). by exists t, rest. Qed.

Lemma episode_ok_Forall (brd : board) (player : mark) (log : list transition) :
  episode_ok brd player log → Forall transition_ok log.
Proof.
  revert brd player. induction log as [|t rest IH]; intros brd player; [done|].
  intros (_ & _ & Ht & Hrest). constructor; [done|].
  destruct rest as [|t' rest']; [constructor|].
  destruct Hrest as [_ Hrest]. by eapply IH.
Qed.

(** An episode has at most as many passes as its first board has Empty
    cells. *)
Lemma episode_ok_length (brd : board) (player : mark) (log : list transition) :
  episode_ok brd player log → length log ≤ length (empty_cells brd).
Proof.
  revert brd player. induction log as [|t rest IH]; intros brd player; [done|].
  intros (<- & _ & Ht & Hrest).
  destruct Ht as (_ & _ & _ & _ & _ & Hcount & _).
  destruct rest as [|t' rest']; [simpl; lia|].
  destruct Hrest as [_ Hrest]. apply IH in Hrest. simpl in *. lia.
Qed.

(** Only the last pass of an episode is [done]. *)
Lemma episode_ok_last (brd : board) (player : mark) (log : list transition) :
  episode_ok brd player log →
  ∃ t, last log = Some t ∧ t_done t = true ∧
       ∀ i t', log !! i = Some t' → S i < length log → t_done t' = false.
Proof.
  revert brd player. induction log as [|t rest IH]; intros brd player; [done|].
  intros (_ & _ & _ & Hrest). destruct rest as [|t' rest'].
  - exists t. split_and!; [done | done |]. intros i t'' _ Hi. simpl in Hi. lia.
  - destruct Hrest as [Hd Hrest].
    destruct (IH _ _ Hrest) as (tl & Hlast & Hdone & Hbefore).
    exists tl. split_and!; [done | done |].
    intros [|i] t'' Hi Hlt; simpl in *; [congruence|].
    apply (Hbefore i); [done | lia].
Qed.

(** The players alternate through an episode. *)
Lemma episode_ok_movers (brd : board) (player : mark) (log : list transition)
    (i : nat) (t : transition) :
  episode_ok brd player log → log !! i = Some t →
  t_mover t = Nat.iter i other player.
Proof.
  revert brd player i. induction log as [|t0 rest IH]; intros brd player i; [done|].
  intros (_ & Hm & _ & Hrest) Hi. destruct i as [|i]; simpl in Hi.
  - by injection Hi as <-.
  - destruct rest as [|t' rest']; [done|]. destruct Hrest as [_ Hrest].
    rewrite (IH _ _ _ Hrest Hi). clear. induction i; [done|]. simpl. by f_equal.
Qed.

Lemma no_winner_empty : no_winner (replicate 9 None).
Proof.
  intros [[a b] c] m _ [H _].
  apply lookup_replicate in H as [? _]. done.
Qed.

Lemma empty_cells_empty : empty_cells (replicate 9 None) = seq 0 9.
Proof. reflexivity. Qed.

(** The loop over the episodes: with room for nine passes per episode it
    raises nothing and runs every episode, each from the empty board with
    the player of its index. *)
Lemma train_from_spec (fuel : nat) (rng : nat → draw) (episode count : nat)
    (self : SelfPlayAgent) (tick : nat) (logs : list (list transition)) :
  match train_from fuel rng episode count self tick logs with
  | None => fuel < 9
  | Some (Ok l, _, _) =>
      ∃ logs', l = logs ++ logs' ∧ length logs' = count ∧
        ∀ i log, logs' !! i = Some log →
          episode_ok (replicate 9 None) (first_player (episode + i)) log
  | Some (Raise _, _, _) => False
  end.
Proof.
  revert episode self tick logs.
  induction count as [|count IH]; intros episode self tick logs; cbn [train_from].
  - exists []. by rewrite app_nil_r.
  - pose proof (play_spec fuel rng self tick (replicate 9 None)
                  (first_player episode) [] eq_refl no_winner_empty) as Hplay.
    rewrite empty_cells_empty in Hplay. specialize (Hplay ltac:(done)).
    destruct (play fuel rng self tick (replicate 9 None) (first_player episode) [])
      as [[[[log0|e] self'] tick']|].
    + destruct Hplay as (log' & -> & Hep). rewrite app_nil_l.
      specialize (IH (S episode) self' tick' (logs ++ [log'])).
      destruct (train_from fuel rng (S episode) count self' tick' (logs ++ [log']))
        as [[[[l|e] self''] tick'']|]; [| done | done].
      destruct IH as (logs' & -> & Hlen & Heps).
      exists (log' :: logs'). split_and!.
      * by rewrite <- app_assoc.
      * simpl. by rewrite Hlen.
      * intros [|i] log Hi; simpl in Hi.
        -- injection Hi as <-. by rewrite Nat.add_0_r.
        -- replace (episode + S i) with (S episode + i) by lia. by apply Heps.
    + by apply Hplay.
    + by apply Hplay.
Qed.

(** More room for passes does not change what the loop computes. *)
Lemma play_fuel_mono (fuel : nat) (rng : nat → draw) (self : SelfPlayAgent)
    (tick : nat) (brd : board) (player : mark) (log : list transition)
    (r : run (list transition)) :
  play fuel rng self tick brd player log = Some r →
  play (S fuel) rng self tick brd player log = Some r.
Proof.
  revert self tick brd player log.
  induction fuel as [|fuel IH]; intros self tick brd player log; [done|].
  remember (S fuel) as n eqn:Hn. intros H.
  rewrite Hn in H. cbn [play] in H |- *.
  destruct (choose_action self brd player true (rng tick)) as [[[action st]|e] self1];
    [|done].
  destruct (setitem brd action (Some player)) as [brd1|e]; [|done].
  destruct (check_winner brd1) as [winner|e]; [|done].
  destruct (bool_decide (is_Some winner) || is_full brd1); [done|].
  by apply IH.
Qed.

Lemma train_from_fuel_mono (fuel : nat) (rng : nat → draw) (episode count : nat)
    (self : SelfPlayAgent) (tick : nat) (logs : list (list transition))
    (r : run (list (list transition))) :
  train_from fuel rng episode count self tick logs = Some r →
  train_from (S fuel) rng episode count self tick logs = Some r.
Proof.
  revert episode self tick logs.
  induction count as [|count IH]; intros episode self tick logs; [done|].
  cbn [train_from].
  destruct (play fuel rng self tick (replicate 9 None) (first_player episode) [])
    as [p|] eqn:Hp; [|done].
  rewrite (play_fuel_mono _ _ _ _ _ _ _ _ Hp).
  destruct p as [[[log|e] self'] tick']; [apply IH | done].
Qed.

Lemma train_fuel_le (fuel fuel' : nat) (rng : nat → draw) (self : SelfPlayAgent)
    (tick : nat) (episodes : Z) (r : run (list (list transition))) :
  fuel ≤ fuel' →
  train fuel rng self tick episodes = Some r →
  train fuel' rng self tick episodes = Some r.
Proof.
  unfold train. induction 1 as [|fuel' _ IH]; [done|].
  intros H. by apply train_from_fuel_mono, IH.
Qed.

Lemma train_spec (fuel : nat) (rng : nat → draw) (self : SelfPlayAgent)
    (tick : nat) (episodes : Z) :
  match train fuel rng self tick episodes with
  | None => fuel < 9
  | Some (Ok logs, _, _) =>
      length logs = Z.to_nat episodes ∧
      ∀ i log, logs !! i = Some log →
        episode_ok (replicate 9 None) (first_player i) log
  | Some (Raise _, _, _) => False
  end.
Proof.
  unfold train.
  pose proof (train_from_spec fuel rng 0 (Z.to_nat episodes) self tick []) as H.
  destruct (train_from fuel rng 0 (Z.to_nat episodes) self tick [])
    as [[[[l|e] self'] tick']|]; [| done | done].
  destruct H as (logs' & -> & Hlen & Heps). by rewrite app_nil_l.
Qed.

Lemma first_player_even (i : nat) : first_player i = X ↔ i mod 2 = 0.
Proof. unfold first_player. by destruct (decide (i mod 2 = 0)). Qed.

(** C6. In every episode of [train] the first mover is X exactly when the
    episode index is even (and O otherwise), the episode starts from the
    empty board, and every recorded transition has [winner] the result of
    [check_winner] on the board after the move,
    [done = bool(winner) or is_full(board)], and [reward] 1.0 exactly when
    the winner is the mover and 0.0 otherwise. *)
Theorem train_transitions (fuel : nat) (rng : nat → draw) (self self' : SelfPlayAgent)
    (tick tick' : nat) (episodes : Z) (logs : list (list transition)) :
  train fuel rng self tick episodes = Some (Ok logs, self', tick') →
  ∀ i log, logs !! i = Some log →
    (∃ t rest, log = t :: rest ∧ t_before t = replicate 9 None ∧
               (t_mover t = X ↔ i mod 2 = 0) ∧ (t_mover t = O ↔ i mod 2 ≠ 0)) ∧
    ∀ t, t ∈ log →
      check_winner (t_after t) = Ok (t_winner t) ∧
      t_done t = bool_decide (is_Some (t_winner t)) || is_full (t_after t) ∧
      t_reward t = (if decide (t_winner t = Some (t_mover t)) then 1 else 0)%float ∧
      (t_reward t = 1%float ↔ t_winner t = Some (t_mover t)) ∧
      (t_reward t = 0%float ↔ t_winner t ≠ Some (t_mover t)).
Proof.
  intros Htrain i log Hi.
  pose proof (train_spec fuel rng self tick episodes) as Hspec.
  rewrite Htrain in Hspec. destruct Hspec as [_ Heps].
  specialize (Heps i log Hi). split.
  - destruct (episode_ok_head _ _ _ Heps) as (t & rest & -> & Hb & Hm).
    exists t, rest. rewrite Hm. split_and!; [done | done | apply first_player_even |].
    rewrite <- first_player_even. by destruct (first_player i).
  - intros t Ht. apply episode_ok_Forall in Heps. rewrite Forall_forall in Heps.
    destruct (Heps t Ht) as (_ & _ & _ & _ & _ & _ & Hw & Hd & Hr & _).
    split_and!; try done; rewrite Hr;
      destruct (decide (t_winner t = Some (t_mover t))); split; done.
Qed.

Lemma train_transitions_witness :
  train 9 rng_ex default_agent 0 2 = Some (Ok logs_ex, self_ex, tick_ex) ∧
  ∀ i log, logs_ex !! i = Some log →
    ∃ t rest, log = t :: rest ∧ t_before t = replicate 9 None ∧
              (t_mover t = X ↔ i mod 2 = 0) ∧ (t_mover t = O ↔ i mod 2 ≠ 0).
Proof.
  split; [vm_compute; reflexivity|].
  intros i log Hi.
  apply (train_transitions 9 rng_ex default_agent self_ex 0 tick_ex 2 logs_ex);
    [vm_compute; reflexivity | exact Hi].
Defined.

(** C10. For every episode count (a negative one runs no episode), [train]
    raises nothing and terminates as soon as the loop of an episode may make
    nine passes, with the outcome it has for exactly nine: it runs every
    episode, each in at most nine passes, the last of which is [done];
    every pass places the mover's mark on a cell that was Empty and leaves
    one Empty cell less. *)
Theorem train_terminates (fuel : nat) (rng : nat → draw) (self : SelfPlayAgent)
    (tick : nat) (episodes : Z) :
  9 ≤ fuel →
  ∃ logs self' tick',
    train fuel rng self tick episodes = Some (Ok logs, self', tick') ∧
    train 9 rng self tick episodes = Some (Ok logs, self', tick') ∧
    length logs = Z.to_nat episodes ∧
    ∀ log, log ∈ logs →
      length log ≤ 9 ∧
      (∃ t, last log = Some t ∧ t_done t = true) ∧
      ∀ t, t ∈ log →
        t_before t !! t_action t = Some None ∧
        t_after t = <[t_action t := Some (t_mover t)]> (t_before t) ∧
        length (empty_cells (t_after t)) < length (empty_cells (t_before t)).
Proof.
  intros Hfuel.
  pose proof (train_spec 9 rng self tick episodes) as Hspec.
  destruct (train 9 rng self tick episodes)
    as [[[[logs|e] self'] tick']|] eqn:Hnine; [| done | lia].
  destruct Hspec as [Hlen Heps].
  exists logs, self', tick'.
  split_and!; [by apply (train_fuel_le 9 fuel) | done | done |].
  intros log [i Hi]%list_elem_of_lookup_1. specialize (Heps i log Hi).
  split_and!.
  - apply episode_ok_length in Heps. by rewrite empty_cells_empty in Heps.
  - destruct (episode_ok_last _ _ _ Heps) as (t & Hlast & Hdone & _). by exists t.
  - intros t Ht. apply episode_ok_Forall in Heps. rewrite Forall_forall in Heps.
    destruct (Heps t Ht) as (_ & _ & _ & Hlegal & Hafter & Hcount & _).
    split_and!; [done | done | lia].
Qed.

Lemma train_terminates_witness :
  9 ≤ 9 ∧
  ∃ logs self' tick',
    train 9 rng_ex default_agent 0 2 = Some (Ok logs, self', tick') ∧
    length logs = 2.
Proof.
  split; [lia|].
  destruct (train_terminates 9 rng_ex default_agent 0 2)
    as (logs & self' & tick' & Htrain & _ & Hlen & _); [lia|].
  exists logs, self', tick'. split; [exact Htrain | exact Hlen].
Defined.

(** The two episodes of the example: X begins the first, which O wins on
    the line (3, 4, 5); O begins the second, which X wins on (0, 1, 2). *)
Example train_ex :
  (map (map summary) logs_ex, tick_ex) =
  ([[(X, 1, false, 0%float); (O, 0, false, 0%float); (X, 2, false, 0%float);
     (O, 3, false, 0%float); (X, 7, false, 0%float); (O, 4, false, 0%float);
     (X, 6, false, 0%float); (O, 5, true, 1%float)];
    [(O, 7, false, 0%float); (X, 0, false, 0%float); (O, 4, false, 0%float);
     (X, 1, false, 0%float); (O, 5, false, 0%float); (X, 2, true, 1%float)]],
   14).
Proof. vm_compute. reflexivity. Qed.

(** ** Lines held by different marks *)



(** ** Persistence *)

Section PersistenceProps.
Context {bytes : Type}.
Variable pickle_dump : gmap key dict → bytes.
Variable pickle_load : bytes → result (gmap key dict).

(** What is assumed of [pickle]: loading what was dumped gives it back. *)
Hypothesis pickle_roundtrip : ∀ data, pickle_load (pickle_dump data) = Ok data.

Lemma load_save (self fresh : SelfPlayAgent) (fs : gmap string bytes)
    (path : string) :
  load pickle_load fresh (save pickle_dump self fs path) path =
  (Ok true, set_q fresh (q self)).
Proof.
  unfold load, save. by rewrite lookup_insert_eq, pickle_roundtrip.
Qed.

(** C8. [save] to a path and then [load] from it into another agent, a
    fresh one in particular, returns true and gives that agent the saved
    table: every (state, action) pair stored at save time reads the saved
    value, and every pair not stored is still absent and reads 0.0. *)
Theorem save_load_roundtrip (self fresh : SelfPlayAgent)
    (fs : gmap string bytes) (path : string) :
  (load pickle_load fresh (save pickle_dump self fs path) path).1 = Ok true ∧
  q (load pickle_load fresh (save pickle_dump self fs path) path).2 = q self ∧
  (∀ st action v,
     entry (q self) st action = Some v →
     entry (q (load pickle_load fresh (save pickle_dump self fs path) path).2)
       st action = Some v ∧
     value_of (q (load pickle_load fresh (save pickle_dump self fs path) path).2)
       st action = v) ∧
  (∀ st action,
     entry (q self) st action = None →
     entry (q (load pickle_load fresh (save pickle_dump self fs path) path).2)
       st action = None ∧
     value_of (q (load pickle_load fresh (save pickle_dump self fs path) path).2)
       st action = 0%float).
Proof.
  rewrite load_save. simpl. split_and!; [done | done | |].
  - intros st action v Hv. split; [done|]. by rewrite value_of_entry, Hv.
  - intros st action Hv. split; [done|]. by rewrite value_of_entry, Hv.
Qed.
End PersistenceProps.

(** C9. [load] on a path without a file returns false, raises nothing and
    leaves the agent as it was; on a file that deserializes it returns true
    and the table is the deserialized mapping, the parameters unchanged; on
    a file that does not, the error of [pickle.load] is the outcome of
    [load] (nothing catches it), the agent as it was. *)
Theorem load_cases {bytes : Type} (pickle_load : bytes → result (gmap key dict))
    (self : SelfPlayAgent) (fs : gmap string bytes) (path : string) :
  (fs !! path = None → load pickle_load self fs path = (Ok false, self)) ∧
  (∀ fh data,
     fs !! path = Some fh → pickle_load fh = Ok data →
     (load pickle_load self fs path).1 = Ok true ∧
     q (load pickle_load self fs path).2 = data ∧
     alpha (load pickle_load self fs path).2 = alpha self ∧
     gamma (load pickle_load self fs path).2 = gamma self ∧
     epsilon (load pickle_load self fs path).2 = epsilon self) ∧
  (∀ fh e,
     fs !! path = Some fh → pickle_load fh = Raise e →
     load pickle_load self fs path = (Raise e, self)).
Proof.
  unfold load. split_and!.
  - by intros ->.
  - intros fh data -> ->. done.
  - intros fh e -> ->. done.
Qed.

Lemma save_load_roundtrip_witness :
  (∀ data, ideal_load (ideal_dump data) = Ok data) ∧
  q (load ideal_load default_agent
       (save ideal_dump agent_ex ∅ "q_table.pkl") "q_table.pkl").2 = q agent_ex.
Proof.
  split; [done|].
  by destruct (save_load_roundtrip ideal_dump ideal_load (λ data, eq_refl)
                 agent_ex default_agent ∅ "q_table.pkl") as (_ & H & _).
Defined.

Example load_ex :
  load ideal_load agent_ex ∅ "q_table.pkl" = (Ok false, agent_ex) ∧
  load ideal_load agent_ex {[ "q_table.pkl" := None ]} "q_table.pkl" =
    (Raise UnpicklingError, agent_ex) ∧
  load ideal_load agent_ex {[ "q_table.pkl" := Some ∅ ]} "q_table.pkl" =
    (Ok true, default_agent).
Proof. done. Qed.

(** * Further properties *)

Set Warnings "-clear-no-such-hyp".

(** ** Legal moves and full boards *)

(** [is_full] holds exactly when [empty_cells] is empty, and fails exactly
    when some cell holds [" "]. *)
Theorem is_full_iff_no_moves (brd : board) :
  (is_full brd = true ↔ empty_cells brd = []) ∧
  (is_full brd = false ↔ ∃ i, brd !! i = Some None).
Proof.
  split; [apply is_full_empty_cells|].
  rewrite <- not_true_iff_false, is_full_empty_cells. split.
  - intros Hne. destruct (empty_cells brd) as [|m rest] eqn:E; [done|].
    exists m. apply elem_of_empty_cells. rewrite E. by left.
  - intros [i Hi%elem_of_empty_cells] E. rewrite E in Hi. inversion Hi.
Qed.

(** [empty_cells] lists exactly the indices of the cells holding [" "], each
    once, in strictly ascending order. *)
Theorem empty_cells_ascending (brd : board) :
  StronglySorted lt (empty_cells brd) ∧
  NoDup (empty_cells brd) ∧
  (∀ m, m ∈ empty_cells brd ↔ brd !! m = Some None) ∧
  (∀ m, m ∈ empty_cells brd → m < length brd).
Proof.
  pose proof (empty_cells_from_sorted 0 brd) as Hs. split_and!.
  - done.
  - unfold empty_cells. induction Hs as [|x l _ IH Hall]; constructor; [|done].
    intros Hin. rewrite Forall_forall in Hall. specialize (Hall x Hin). lia.
  - apply elem_of_empty_cells.
  - intros m Hm%elem_of_empty_cells. by eapply lookup_lt_Some.
Qed.

Lemma empty_cells_from_ge (i : nat) (brd : board) (m : nat) :
  m ∈ empty_cells_from i brd → i ≤ m.
Proof. by intros [? _]%elem_of_empty_cells_from. Qed.

Lemma filter_Forall_id {A} (P : A → Prop) `{∀ x, Decision (P x)} (l : list A) :
  Forall P l → filter P l = l.
Proof.
  induction 1 as [|x l Hx _ IH]; [done|]. by rewrite filter_cons_True, IH.
Qed.

Lemma empty_cells_from_insert_filter (brd : board) (a i : nat) (p : mark) :
  brd !! a = Some None →
  empty_cells_from i (<[a := Some p]> brd) =
  filter (λ m, m ≠ i + a) (empty_cells_from i brd).
Proof.
  revert a i. induction brd as [|v rest IH]; intros a i Ha; [done|].
  destruct a as [|a]; simpl in *.
  - injection Ha as ->. simpl. rewrite filter_cons_False by lia.
    symmetry. apply filter_Forall_id, Forall_forall.
    intros m Hm%empty_cells_from_ge. lia.
  - rewrite (IH a (S i) Ha).
    replace (i + S a) with (S i + a) by lia.
    destruct (decide (v = None)); [|done].
    by rewrite filter_cons_True by lia.
Qed.

(** Placing a mark on an Empty cell removes that cell, and only that cell,
    from the legal moves, whose order is kept. *)
Theorem empty_cells_after_move (brd : board) (a : nat) (p : mark) :
  brd !! a = Some None →
  empty_cells (<[a := Some p]> brd) = filter (λ m, m ≠ a) (empty_cells brd) ∧
  (a ∉ empty_cells (<[a := Some p]> brd)) ∧
  (∀ m, m ≠ a →
        (m ∈ empty_cells (<[a := Some p]> brd) ↔ m ∈ empty_cells brd)) ∧
  length (empty_cells (<[a := Some p]> brd)) + 1 = length (empty_cells brd).
Proof.
  intros Ha.
  assert (empty_cells (<[a := Some p]> brd) =
          filter (λ m, m ≠ a) (empty_cells brd)) as Heq
    by apply (empty_cells_from_insert_filter brd a 0 p Ha).
  split_and!; [done | | |by apply empty_cells_from_insert].
  - rewrite Heq, list_elem_of_filter. by intros [? _].
  - intros m Hm. rewrite Heq, list_elem_of_filter.
    split; [by intros [_ ?] | by intros ?].
Qed.

Lemma empty_cells_after_move_witness :
  board_ex !! 3 = Some None ∧
  empty_cells (<[3 := Some O]> board_ex) = [1; 4; 5; 6; 7; 8].
Proof.
  split; [done|].
  destruct (empty_cells_after_move board_ex 3 O) as [-> _]; done.
Defined.

(** ** Errors of [check_winner] *)

Lemma check_lines_raise (brd : board) (lines : list (nat * nat * nat)) (e : exn) :
  check_lines brd lines = Raise e → e = IndexError.
Proof.
  induction lines as [|[[a b] c] rest IH]; simpl; [done|].
  unfold getitem.
  destruct (brd !! a) as [[m|]|]; simpl; [| done | congruence].
  destruct (brd !! b) as [vb|]; simpl; [|congruence].
  destruct (decide (Some m = vb)); [|done].
  destruct (brd !! c) as [vc|]; simpl; [|congruence].
  by destruct (decide (vb = vc)).
Qed.

Lemma WIN_LINES_in_range_ge (brd : board) :
  9 ≤ length brd → Forall (line_in_range brd) WIN_LINES.
Proof.
  intros Hlen. unfold WIN_LINES, line_in_range.
  repeat constructor; simpl; lia.
Qed.

(** The only exception of [check_winner] is [IndexError], and only a board
    of fewer than nine cells raises it; the empty board does. A board of
    nine cells or more always gets a result. *)
Theorem check_winner_raises (brd : board) :
  (∀ e, check_winner brd = Raise e → e = IndexError ∧ length brd < 9) ∧
  (9 ≤ length brd → ∃ r, check_winner brd = Ok r) ∧
  (length brd ≤ 2 → check_winner brd = Raise IndexError).
Proof.
  assert (9 ≤ length brd → ∃ r, check_winner brd = Ok r) as Hok.
  { intros Hlen.
    destruct (check_lines_first brd WIN_LINES (WIN_LINES_in_range_ge brd Hlen))
      as [(l1 & line & l2 & m & _ & _ & _ & Hr) | [_ Hr]]; by eexists. }
  split_and!; [| done |].
  - intros e He. split; [by eapply check_lines_raise|].
    destruct (decide (9 ≤ length brd)) as [Hlen|]; [|lia].
    destruct (Hok Hlen) as [r Hr]. congruence.
  - intros Hlen. destruct brd as [|v0 [|v1 [|v2 rest]]]; simpl in Hlen; [| | | lia].
    + done.
    + by destruct v0.
    + destruct v0 as [m0|]; [|done]. unfold check_winner. simpl.
      unfold getitem. simpl. by destruct (decide (Some m0 = v1)).
Qed.

(** ** The encoder as a change of view *)

Lemma decode_encode_cell (player : mark) (v : option mark) :
  decode_label player (encode_cell player (other player) v) = v.
Proof. by destruct v as [[]|], player. Qed.

(** The board can be read back from its encoding and the player: the
    encoder loses nothing, so two boards with one encoding for one player
    are equal. *)
Theorem decode_encode_state (brd brd' : board) (player : mark) :
  decode_state player (encode_state brd player) = brd ∧
  (encode_state brd player = encode_state brd' player → brd = brd').
Proof.
  assert (∀ b : board, decode_state player (encode_state b player) = b) as Hrt.
  { intros b. unfold decode_state, encode_state.
    rewrite <- list_fmap_compose. rewrite <- (list_fmap_id b) at 2.
    apply list_fmap_ext. intros i v _. apply decode_encode_cell. }
  split; [apply Hrt|]. intros E. by rewrite <- (Hrt brd), E, Hrt.
Qed.

(** One table serves both players: a board seen by one player and the
    board with the marks exchanged seen by the other have one encoding. *)
Theorem encode_state_swap_marks (brd : board) (player : mark) :
  encode_state (swap_marks brd) (other player) = encode_state brd player.
Proof.
  unfold encode_state, swap_marks. rewrite <- list_fmap_compose.
  apply list_fmap_ext. intros i v _. by destruct v as [[]|], player.
Qed.

(** ** The two branches of the policy *)

(** The exploring branch reads nothing from the table and leaves the agent
    as it is. *)
Lemma choose_action_explore (self : SelfPlayAgent) (brd : board) (player : mark)
    (d : draw) :
  PrimFloat.ltb (rand d) (epsilon self) = true →
  choose_action self brd player true d =
  (m ← random_choice (empty_cells brd) d; Ok (m, encode_state brd player), self).
Proof. unfold choose_action. by intros ->. Qed.

(** Exploration can reach every legal move: for each Empty cell there is a
    value of the random index for which the exploring branch returns that
    cell, whatever the table holds, and the agent is left unchanged. *)
Theorem choose_action_explores (brd : board) (player : mark) (m : nat) :
  brd !! m = Some None →
  ∃ k, ∀ self d,
    pick d = k → PrimFloat.ltb (rand d) (epsilon self) = true →
    choose_action self brd player true d =
      (Ok (m, encode_state brd player), self).
Proof.
  intros Hm%elem_of_empty_cells.
  apply list_elem_of_lookup_1 in Hm as [k Hk].
  exists k. intros self d Hpick Hlt.
  rewrite choose_action_explore by done. unfold random_choice.
  assert (k < length (empty_cells brd)) as Hlen by by eapply lookup_lt_Some.
  rewrite Hpick, Nat.mod_small by done.
  rewrite (getitem_lookup _ _ _ Hk).
  by destruct (empty_cells brd).
Qed.

Lemma choose_action_explores_witness :
  board_ex !! 5 = Some None ∧
  ∃ k, choose_action agent_ex board_ex X true {| rand := 0; pick := k |} =
       (Ok (5, encode_state board_ex X), agent_ex).
Proof.
  split; [done|].
  destruct (choose_action_explores board_ex X 5) as [k Hk]; [done|].
  exists k. by apply Hk.
Defined.

(** On a full board [choose_action] raises: [IndexError] from
    [random.choice] on the exploring branch, which leaves the table alone,
    and [ValueError] from [max] on the greedy branch, after the lookup
    [self.q[state]] has made the encoded board a key. *)
Theorem choose_action_full_board (self : SelfPlayAgent) (brd : board)
    (player : mark) (explore : bool) (d : draw) :
  is_full brd = true →
  choose_action self brd player explore d =
  if explore && PrimFloat.ltb (rand d) (epsilon self)
  then (Raise IndexError, self)
  else (Raise ValueError,
        set_q self (q_getitem (q self) (Some (encode_state brd player))).2).
Proof.
  intros Hfull%is_full_empty_cells. unfold choose_action. rewrite Hfull.
  destruct (explore && PrimFloat.ltb (rand d) (epsilon self)); [done|].
  by destruct (q_getitem _ _).
Qed.

Lemma choose_action_full_board_witness :
  is_full (replicate 9 (Some X)) = true ∧
  choose_action default_agent (replicate 9 (Some X)) O false draw_ex =
    (Raise ValueError,
     set_q default_agent {[ Some (replicate 9 lE) := [] ]}).
Proof.
  split; [done|].
  by rewrite (choose_action_full_board default_agent (replicate 9 (Some X)) O
                false draw_ex eq_refl).
Defined.

Lemma choose_action_entry (self : SelfPlayAgent) (brd : board) (player : mark)
    (explore : bool) (d : draw) (k : key) (a : nat) :
  entry (q (choose_action self brd player explore d).2) k a = entry (q self) k a.
Proof.
  rewrite choose_action_q.
  destruct (explore && PrimFloat.ltb (rand d) (epsilon self)); [done|].
  rewrite <- q_getitem_snd. apply q_getitem_entry.
Qed.

Lemma best_move_eq (self : SelfPlayAgent) (brd : board) (player : mark) :
  best_move self brd player =
  ((choose_action self brd player false {| rand := 0; pick := 0 |}).1
     ≫= (λ ar, Ok ar.1),
   (choose_action self brd player false {| rand := 0; pick := 0 |}).2).
Proof. unfold best_move. by destruct (choose_action _ _ _ _ _). Qed.

(** [best_move] raises [ValueError] on a full board. On any other board it
    returns the action of the greedy [choose_action] for every draw: a legal
    move whose estimate no legal move exceeds. It changes no stored value. *)
Theorem best_move_spec (self : SelfPlayAgent) (brd : board) (player : mark) :
  (is_full brd = true → (best_move self brd player).1 = Raise ValueError) ∧
  (is_full brd = false →
   ∃ m,
     (best_move self brd player).1 = Ok m ∧
     brd !! m = Some None ∧
     (∀ d, (choose_action self brd player false d).1 =
           Ok (m, encode_state brd player)) ∧
     (∀ m', brd !! m' = Some None →
        PrimFloat.ltb (value_of (q self) (Some (encode_state brd player)) m)
                      (value_of (q self) (Some (encode_state brd player)) m')
        = false)) ∧
  (∀ k a, entry (q (best_move self brd player).2) k a = entry (q self) k a).
Proof.
  rewrite best_move_eq. simpl. split_and!.
  - intros Hfull. by rewrite (choose_action_full_board _ _ _ _ _ Hfull).
  - intros Hfull.
    assert (empty_cells brd ≠ []) as Hne.
    { intros E%is_full_empty_cells. congruence. }
    destruct (py_max_split (value_of (q self) (Some (encode_state brd player)))
                (empty_cells brd) Hne)
      as (best & l1 & l2 & Hmax & Hsplit & Hl1 & Hl2).
    exists best. rewrite !choose_action_greedy, Hmax. simpl. split_and!; try done.
    + apply elem_of_empty_cells. rewrite Hsplit. set_solver.
    + intros d. by rewrite choose_action_greedy, Hmax.
    + intros m' Hm'%elem_of_empty_cells. rewrite Hsplit in Hm'.
      apply elem_of_app in Hm' as [Hm' | [-> | Hm']%elem_of_cons].
      * by apply leb_false_ltb, Hl1.
      * apply ltb_irrefl.
      * by apply Hl2.
  - intros k a. apply choose_action_entry.
Qed.

(** ** What [update] leaves alone *)

Lemma update_params (self : SelfPlayAgent) (st : key) (action : nat)
    (reward : float) (next_state : key) (done : bool) :
  alpha (update self st action reward next_state done) = alpha self ∧
  gamma (update self st action reward next_state done) = gamma self ∧
  epsilon (update self st action reward next_state done) = epsilon self.
Proof.
  unfold update. destruct (q_getitem (q self) st) as [values q1].
  destruct done; [done|]. by destruct (q_getitem q1 next_state).
Qed.

(** [update] writes one entry: every other (state, action) pair keeps its
    stored value or stays absent, and [alpha], [gamma] and [epsilon] are
    unchanged. *)
Theorem update_one_entry (self : SelfPlayAgent) (st : key) (action : nat)
    (reward : float) (next_state : key) (done : bool) :
  (∀ k a, (k, a) ≠ (st, action) →
     entry (q (update self st action reward next_state done)) k a =
     entry (q self) k a) ∧
  (∀ k a, (k, a) ≠ (st, action) →
     value_of (q (update self st action reward next_state done)) k a =
     value_of (q self) k a) ∧
  alpha (update self st action reward next_state done) = alpha self ∧
  gamma (update self st action reward next_state done) = gamma self ∧
  epsilon (update self st action reward next_state done) = epsilon self.
Proof.
  split_and!; try apply update_params.
  - intros k a Hne. by apply update_frame.
  - intros k a Hne. by rewrite !value_of_entry, update_frame.
Qed.

Lemma q_getitem_dom (tbl : gmap key dict) (k : key) :
  dom (q_getitem tbl k).2 = dom tbl ∪ {[k]}.
Proof.
  rewrite q_getitem_snd. destruct (tbl !! k) eqn:E.
  - assert (k ∈ dom tbl) by (apply elem_of_dom; by eexists). set_solver.
  - rewrite dom_insert_L. set_solver.
Qed.

(** The keys of the table after [update] are the keys before, the state,
    and, on a non-terminal transition, the next state, which the lookup
    [self.q[next_state]] creates; a terminal [update] does not look at
    [next_state] at all. *)
Theorem update_keys (self : SelfPlayAgent) (st : key) (action : nat)
    (reward : float) (next_state : key) (done : bool) :
  dom (q (update self st action reward next_state done)) =
    dom (q self) ∪ {[st]} ∪ (if done then ∅ else {[next_state]}) ∧
  (∀ next_state',
     update self st action reward next_state true =
     update self st action reward next_state' true).
Proof.
  split.
  - rewrite update_q, dom_insert_L.
    destruct done; rewrite ?q_getitem_dom; set_solver.
  - intros next_state'. unfold update. by destruct (q_getitem (q self) st).
Qed.

Example update_creates_next_state :
  q (update default_agent (Some (replicate 9 l_)) 4 0
       (Some (encode_state (<[4 := Some X]> (replicate 9 None)) O)) false) =
  {[ Some (replicate 9 l_) := [(4, 0%float)];
     Some [l_; l_; l_; l_; lE; l_; l_; l_; l_] := [] ]}.
Proof. vm_compute. reflexivity. Qed.

(** ** Files written by [save] *)

Section SaveProps.
Context {bytes : Type}.
Variable pickle_dump : gmap key dict → bytes.
Variable pickle_load : bytes → result (gmap key dict).
Hypothesis pickle_roundtrip : ∀ data, pickle_load (pickle_dump data) = Ok data.

(** [save] overwrites: after two saves to one path a [load] gets the table
    saved last, and the first save leaves no trace. It touches no other
    path: a [load] from another path is what it was before the save. *)
Theorem save_overwrites (first second reader : SelfPlayAgent)
    (fs : gmap string bytes) (path : string) :
  load pickle_load reader
    (save pickle_dump second (save pickle_dump first fs path) path) path =
    (Ok true, set_q reader (q second)) ∧
  save pickle_dump second (save pickle_dump first fs path) path =
    save pickle_dump second fs path ∧
  (∀ path', path' ≠ path →
     load pickle_load reader (save pickle_dump first fs path) path' =
     load pickle_load reader fs path').
Proof.
  unfold load, save. split_and!.
  - by rewrite lookup_insert_eq, pickle_roundtrip.
  - apply insert_insert_eq.
  - intros path' Hne. by rewrite lookup_insert_ne.
Qed.
End SaveProps.

Lemma save_overwrites_witness :
  (∀ data, ideal_load (ideal_dump data) = Ok data) ∧
  load ideal_load default_agent
    (save ideal_dump agent_ex (save ideal_dump default_agent ∅ "q_table.pkl")
       "q_table.pkl") "q_table.pkl" =
    (Ok true, set_q default_agent (q agent_ex)).
Proof.
  split; [done|].
  by destruct (save_overwrites ideal_dump ideal_load (λ data, eq_refl)
                 default_agent agent_ex default_agent ∅ "q_table.pkl")
    as [H _].
Defined.

(** ** What training keeps *)

Lemma choose_action_state (self : SelfPlayAgent) (brd : board) (player : mark)
    (explore : bool) (d : draw) (action : nat) (st : state) :
  (choose_action self brd player explore d).1 = Ok (action, st) →
  st = encode_state brd player.
Proof.
  unfold choose_action.
  destruct (explore && PrimFloat.ltb (rand d) (epsilon self)); simpl.
  - destruct (random_choice (empty_cells brd) d); simpl; congruence.
  - destruct (q_getitem _ _) as [values q1]. simpl.
    destruct (py_max (estimate values) (empty_cells brd)); simpl; congruence.
Qed.

Lemma encode_state_length (brd : board) (player : mark) :
  length (encode_state brd player) = length brd.
Proof. unfold encode_state. apply length_fmap. Qed.

Section TrainInvariant.
(** A property of the agent that [choose_action] on a board of nine cells
    and the two calls of [update] in [train], on states of nine labels,
    keep. *)
Variable P : SelfPlayAgent → Prop.
Hypothesis P_choose : ∀ self (brd : board) player explore d,
  length brd = 9 → P self → P (choose_action self brd player explore d).2.
Hypothesis P_update_done : ∀ self (st : state) action reward,
  length st = 9 → P self → P (update self (Some st) action reward None true).
Hypothesis P_update_next : ∀ self (st next_state : state) action reward,
  length st = 9 → length next_state = 9 →
  P self → P (update self (Some st) action reward (Some next_state) false).

Lemma play_invariant (fuel : nat) (rng : nat → draw) (self : SelfPlayAgent)
    (tick : nat) (brd : board) (player : mark) (log : list transition) :
  length brd = 9 → P self →
  match play fuel rng self tick brd player log with
  | Some (_, self', _) => P self'
  | None => True
  end.
Proof.
  revert self tick brd player log.
  induction fuel as [|fuel IH]; intros self tick brd player log Hlen HP; [done|].
  cbn [play].
  pose proof (P_choose self brd player true (rng tick) Hlen HP) as HP1.
  pose proof (choose_action_state self brd player true (rng tick)) as Hst.
  destruct (choose_action self brd player true (rng tick))
    as [[[action st]|e] self1]; [|done]. simpl in HP1.
  specialize (Hst action st eq_refl).
  assert (length st = 9) as Hlst by (by rewrite Hst, encode_state_length).
  unfold setitem. destruct (decide (action < length brd)); [|done].
  destruct (check_winner (<[action := Some player]> brd)) as [winner|e]; [|done].
  destruct (bool_decide (is_Some winner) || is_full (<[action := Some player]> brd)).
  - by apply P_update_done.
  - apply IH; [by rewrite length_insert|].
    apply P_update_next; [done | | done].
    by rewrite encode_state_length, length_insert.
Qed.

Lemma train_from_invariant (fuel : nat) (rng : nat → draw) (episode count : nat)
    (self : SelfPlayAgent) (tick : nat) (logs : list (list transition)) :
  P self →
  match train_from fuel rng episode count self tick logs with
  | Some (_, self', _) => P self'
  | None => True
  end.
Proof.
  revert episode self tick logs.
  induction count as [|count IH]; intros episode self tick logs HP; [done|].
  cbn [train_from].
  pose proof (play_invariant fuel rng self tick (replicate 9 None)
                (first_player episode) [] eq_refl HP) as Hplay.
  destruct (play fuel rng self tick (replicate 9 None) (first_player episode) [])
    as [[[[log|e] self'] tick']|]; [by apply IH | done | done].
Qed.
End TrainInvariant.

Lemma choose_action_params (self : SelfPlayAgent) (brd : board) (player : mark)
    (explore : bool) (d : draw) :
  alpha (choose_action self brd player explore d).2 = alpha self ∧
  gamma (choose_action self brd player explore d).2 = gamma self ∧
  epsilon (choose_action self brd player explore d).2 = epsilon self.
Proof.
  unfold choose_action.
  destruct (explore && PrimFloat.ltb (rand d) (epsilon self)); [done|].
  by destruct (q_getitem _ _).
Qed.

Lemma update_entry_written (self : SelfPlayAgent) (st : key) (action : nat)
    (reward : float) (next_state : key) (done : bool) :
  is_Some (entry (q (update self st action reward next_state done)) st action).
Proof.
  rewrite update_q. unfold entry. rewrite lookup_insert_eq. simpl.
  rewrite dict_lookup_set_eq. by eexists.
Qed.

Lemma update_entry_kept (self : SelfPlayAgent) (st : key) (action : nat)
    (reward : float) (next_state : key) (done : bool) (k : key) (a : nat) :
  is_Some (entry (q self) k a) →
  is_Some (entry (q (update self st action reward next_state done)) k a).
Proof.
  intros Hk. destruct (decide ((k, a) = (st, action))) as [[= -> ->] | Hne].
  - apply update_entry_written.
  - by rewrite update_frame.
Qed.

(** The only thing [train] changes in the agent is the table, and it only
    adds to it: whatever the outcome, [alpha], [gamma] and [epsilon] are as
    before and every (state, action) pair that had a stored value still has
    one. *)
Theorem train_only_adds (fuel : nat) (rng : nat → draw) (self self' : SelfPlayAgent)
    (tick tick' : nat) (episodes : Z) (r : result (list (list transition))) :
  train fuel rng self tick episodes = Some (r, self', tick') →
  alpha self' = alpha self ∧ gamma self' = gamma self ∧
  epsilon self' = epsilon self ∧
  (∀ k a, is_Some (entry (q self) k a) → is_Some (entry (q self') k a)).
Proof.
  intros Htrain.
  pose proof (train_from_invariant
    (λ s, alpha s = alpha self ∧ gamma s = gamma self ∧
          epsilon s = epsilon self ∧
          ∀ k a, is_Some (entry (q self) k a) → is_Some (entry (q s) k a)))
    as Hinv.
  unfold train in Htrain.
  specialize (Hinv
    ltac:(intros s brd player explore d _ (Ha & Hg & He & Hq);
          destruct (choose_action_params s brd player explore d)
            as (-> & -> & ->);
          split_and!; try done;
          intros k a Hk; rewrite choose_action_entry; by apply Hq)
    ltac:(intros s st action reward _ (Ha & Hg & He & Hq);
          destruct (update_params s (Some st) action reward None true)
            as (-> & -> & ->);
          split_and!; try done;
          intros k a Hk; by apply update_entry_kept, Hq)
    ltac:(intros s st ns action reward _ _ (Ha & Hg & He & Hq);
          destruct (update_params s (Some st) action reward (Some ns) false)
            as (-> & -> & ->);
          split_and!; try done;
          intros k a Hk; by apply update_entry_kept, Hq)
    fuel rng 0 (Z.to_nat episodes) self tick []
    ltac:(by split_and!)).
  by rewrite Htrain in Hinv.
Qed.

Lemma train_only_adds_witness :
  train 9 rng_ex default_agent 0 2 = Some (Ok logs_ex, self_ex, tick_ex) ∧
  alpha self_ex = alpha default_agent.
Proof.
  split; [vm_compute; reflexivity|].
  by destruct (train_only_adds 9 rng_ex default_agent self_ex 0 tick_ex 2
                 (Ok logs_ex) ltac:(vm_compute; reflexivity)) as [H _].
Defined.

(** Every key that [train] adds to the table is the encoding of a board of
    nine cells: when the keys of the table are tuples of nine labels before
    training they are so after it, whatever the outcome; in particular
    [None], the [next_state] of a terminal transition, never becomes a key. *)
Theorem train_keys_are_states (fuel : nat) (rng : nat → draw)
    (self self' : SelfPlayAgent) (tick tick' : nat) (episodes : Z)
    (r : result (list (list transition))) :
  (∀ k, is_Some (q self !! k) → ∃ st : state, k = Some st ∧ length st = 9) →
  train fuel rng self tick episodes = Some (r, self', tick') →
  (∀ k, is_Some (q self' !! k) → ∃ st : state, k = Some st ∧ length st = 9) ∧
  q self' !! None = None.
Proof.
  intros Hkeys Htrain.
  set (P := λ s : SelfPlayAgent,
         ∀ k, k ∈ dom (q s) → ∃ st : state, k = Some st ∧ length st = 9).
  assert (P self') as HP.
  { pose proof (train_from_invariant P) as Hinv. unfold train in Htrain.
    assert (∀ s st action reward next_state done,
              length st = 9 →
              (done = false → ∃ ns : state, next_state = Some ns ∧ length ns = 9) →
              P s → P (update s (Some st) action reward next_state done))
      as Hupd.
    { intros s st action reward next_state done Hst Hns Hs k.
      destruct (update_keys s (Some st) action reward next_state done) as [-> _].
      intros [[Hk | ->%elem_of_singleton]%elem_of_union | Hk]%elem_of_union.
      - by apply Hs.
      - by exists st.
      - destruct done; [set_solver|]. apply elem_of_singleton in Hk as ->.
        by apply Hns. }
    specialize (Hinv
      ltac:(intros s brd player explore d Hlen Hs k; rewrite choose_action_q;
            destruct (explore && PrimFloat.ltb (rand d) (epsilon s));
              [apply Hs|];
            rewrite <- q_getitem_snd, q_getitem_dom;
            intros [Hk | ->%elem_of_singleton]%elem_of_union; [by apply Hs|];
            eexists; split; [done|]; by rewrite encode_state_length)
      ltac:(intros s st action reward Hst Hs; by apply Hupd)
      ltac:(intros s st ns action reward Hst Hns Hs; apply Hupd; [done | | done];
            intros _; by exists ns)
      fuel rng 0 (Z.to_nat episodes) self tick []
      ltac:(intros k Hk%elem_of_dom; by apply Hkeys)).
    by rewrite Htrain in Hinv. }
  split.
  - intros k Hk%elem_of_dom. by apply HP.
  - destruct (q self' !! None) eqn:E; [|done].
    destruct (HP None) as (st & [=] & _). apply elem_of_dom. by eexists.
Qed.

Lemma train_keys_are_states_witness :
  (∀ k, is_Some (q default_agent !! k) →
        ∃ st : state, k = Some st ∧ length st = 9) ∧
  train 9 rng_ex default_agent 0 2 = Some (Ok logs_ex, self_ex, tick_ex) ∧
  q self_ex !! None = None.
Proof.
  assert (∀ k, is_Some (q default_agent !! k) →
               ∃ st : state, k = Some st ∧ length st = 9) as Hfresh.
  { intros k [x Hx]. simpl in Hx. by rewrite lookup_empty in Hx. }
  split_and!; [done | vm_compute; reflexivity |].
  by destruct (train_keys_are_states 9 rng_ex default_agent self_ex 0 tick_ex 2
                 (Ok logs_ex) Hfresh ltac:(vm_compute; reflexivity)) as [_ H].
Defined.

(** ** The shape of an episode *)

(** Consecutive passes of an episode: the board and the turn are handed on. *)
Lemma episode_ok_step (brd : board) (player : mark) (log : list transition)
    (i : nat) (t t' : transition) :
  episode_ok brd player log →
  log !! i = Some t → log !! S i = Some t' →
  t_done t = false ∧ t_before t' = t_after t ∧ t_mover t' = other (t_mover t).
Proof.
  revert brd player i. induction log as [|t0 rest IH]; intros brd player i; [done|].
  intros (_ & Hm & _ & Hrest) Hi Hi'.
  destruct rest as [|t1 rest']; [done|]. destruct Hrest as [Hd Hrest].
  destruct i as [|i]; simpl in Hi, Hi'.
  - injection Hi as <-. injection Hi' as <-.
    destruct Hrest as (Hb & Hm' & _). by rewrite Hm.
  - by eapply IH.
Qed.

Lemma transition_ok_not_done (t : transition) :
  transition_ok t → t_done t = false →
  t_winner t = None ∧ t_reward t = 0%float ∧ is_full (t_after t) = false ∧
  t_next_state t = Some (encode_state (t_after t) (other (t_mover t))).
Proof.
  intros (_ & _ & _ & _ & _ & _ & _ & Hd & Hr & Hn & _) Hdone.
  rewrite Hdone in Hd, Hn. symmetry in Hd.
  apply orb_false_iff in Hd as [Hw Hfull].
  assert (t_winner t = None) as Hnone.
  { apply bool_decide_eq_false in Hw. destruct (t_winner t); [|done].
    by destruct Hw. }
  rewrite Hnone in Hr. by rewrite Hr.
Qed.

(** Rewards are sparse. In every episode of [train] each pass but the last
    has no winner, reward 0.0 and is not [done], and its [next_state] is
    the very state in which the other player then chooses. The last pass is
    [done] with [next_state] [None]; its reward is 1.0 when it completes a
    line, and when it does not the board is full and the reward is 0.0. *)
Theorem train_rewards_sparse (fuel : nat) (rng : nat → draw)
    (self self' : SelfPlayAgent) (tick tick' : nat) (episodes : Z)
    (logs : list (list transition)) :
  train fuel rng self tick episodes = Some (Ok logs, self', tick') →
  ∀ log, log ∈ logs →
    (∀ i t t', log !! i = Some t → log !! S i = Some t' →
       t_done t = false ∧ t_winner t = None ∧ t_reward t = 0%float ∧
       t_mover t' = other (t_mover t) ∧
       t_next_state t = Some (t_state t')) ∧
    (∃ t, last log = Some t ∧ t_done t = true ∧ t_next_state t = None ∧
          (t_winner t = Some (t_mover t) → t_reward t = 1%float) ∧
          (t_winner t ≠ Some (t_mover t) →
           t_winner t = None ∧ is_full (t_after t) = true ∧
           t_reward t = 0%float)).
Proof.
  intros Htrain log [n Hn]%list_elem_of_lookup_1.
  pose proof (train_spec fuel rng self tick episodes) as Hspec.
  rewrite Htrain in Hspec. destruct Hspec as [_ Heps].
  specialize (Heps n log Hn).
  pose proof (episode_ok_Forall _ _ _ Heps) as Hall.
  rewrite Forall_forall in Hall. split.
  - intros i t t' Hi Hi'.
    destruct (episode_ok_step _ _ _ _ _ _ Heps Hi Hi') as (Hd & Hb & Hm).
    assert (t ∈ log) as Ht by by eapply list_elem_of_lookup_2.
    assert (t' ∈ log) as Ht' by by eapply list_elem_of_lookup_2.
    destruct (transition_ok_not_done t (Hall t Ht) Hd) as (Hw & Hr & _ & Hns).
    destruct (Hall t' Ht') as (_ & _ & Hst & _).
    split_and!; try done. by rewrite Hns, Hst, Hb, Hm.
  - destruct (episode_ok_last _ _ _ Heps) as (t & Hlast & Hdone & _).
    exists t. assert (t ∈ log) as Ht.
    { rewrite last_lookup in Hlast. by eapply list_elem_of_lookup_2. }
    destruct (Hall t Ht) as (_ & _ & _ & _ & _ & _ & _ & Hd & Hr & Hnext & Hmover).
    rewrite Hdone in Hnext, Hd.
    split_and!; try done.
    + intros Hw. rewrite Hr. by rewrite decide_True.
    + intros Hw. rewrite Hr, decide_False by done.
      destruct (t_winner t) as [m|] eqn:Em.
      * exfalso. apply Hw. f_equal.
        destruct (Hall t Ht) as (Hlen & _ & _ & _ & Hafter & _ & Hcw & _).
        rewrite Em in Hcw.
        assert (length (t_after t) = 9) as Hlen'
          by (rewrite Hafter; by rewrite length_insert).
        destruct (check_winner_first (t_after t) Hlen') as
          [(l1 & line & l2 & m' & Hsplit & Hfull & _ & Hr') | [_ Hr']];
          rewrite Hcw in Hr'; [|done].
        injection Hr' as ->. apply (Hmover line); [|done].
        rewrite Hsplit. set_solver.
      * simpl in Hd. by split_and!.
Qed.

Lemma train_rewards_sparse_witness :
  train 9 rng_ex default_agent 0 2 = Some (Ok logs_ex, self_ex, tick_ex) ∧
  ∀ log, log ∈ logs_ex → ∃ t, last log = Some t ∧ t_done t = true.
Proof.
  split; [vm_compute; reflexivity|].
  intros log Hlog.
  destruct (train_rewards_sparse 9 rng_ex default_agent self_ex 0 tick_ex 2
              logs_ex ltac:(vm_compute; reflexivity) log Hlog)
    as [_ (t & Hlast & Hdone & _)].
  by exists t.
Defined.

(** ** How long an episode lasts *)

Lemma count_mark_cons (m : mark) (v : option mark) (brd : board) :
  count_mark m (v :: brd) =
  (if decide (v = Some m) then 1 else 0) + count_mark m brd.
Proof.
  unfold count_mark. rewrite filter_cons. by destruct (decide (v = Some m)).
Qed.

Lemma count_mark_insert (brd : board) (a : nat) (p m : mark) :
  brd !! a = Some None →
  count_mark m (<[a := Some p]> brd) =
  (if decide (m = p) then 1 else 0) + count_mark m brd.
Proof.
  revert a. induction brd as [|v rest IH]; intros a Ha; [done|].
  destruct a as [|a]; simpl in *.
  - injection Ha as ->. rewrite !count_mark_cons.
    rewrite (decide_False (P := None = Some m)) by done.
    destruct (decide (m = p)) as [-> | Hne].
    + by rewrite decide_True.
    + rewrite decide_False by congruence. done.
  - rewrite !count_mark_cons, (IH a Ha). lia.
Qed.

(** Every cell holds X, O or nothing. *)
Lemma count_mark_total (i : nat) (brd : board) :
  count_mark X brd + count_mark O brd + length (empty_cells_from i brd) =
  length brd.
Proof.
  revert i. induction brd as [|v rest IH]; intros i; [done|].
  rewrite !count_mark_cons. simpl. specialize (IH (S i)).
  destruct v as [[]|]; simpl; lia.
Qed.

Lemma count_mark_drop (brd : board) (i : nat) (m : mark) :
  brd !! i = Some (Some m) →
  1 + count_mark m (drop (S i) brd) ≤ count_mark m brd.
Proof.
  revert i. induction brd as [|v rest IH]; intros i Hi; [done|].
  rewrite count_mark_cons. destruct i as [|i]; simpl in *.
  - injection Hi as ->. rewrite decide_True by done. rewrite drop_0. lia.
  - specialize (IH i Hi). lia.
Qed.

(** A full line holds three marks. *)
Lemma line_full_count (brd : board) (m : mark) (line : nat * nat * nat) :
  line ∈ WIN_LINES → line_full brd m line → 3 ≤ count_mark m brd.
Proof.
  intros Hin (Ha & Hb & Hc).
  assert (line.1.1 < line.1.2 ∧ line.1.2 < line.2) as [Hab Hbc].
  { unfold WIN_LINES in Hin.
    repeat (apply elem_of_cons in Hin as [-> | Hin]; [simpl; lia|]).
    inversion Hin. }
  destruct line as [[a b] c]. simpl in *.
  pose proof (count_mark_drop brd a m Ha) as H1.
  assert (drop (S a) brd !! (b - S a) = Some (Some m)) as Hb'.
  { rewrite lookup_drop. by replace (S a + (b - S a)) with b by lia. }
  pose proof (count_mark_drop _ _ m Hb') as H2.
  assert (drop (S (b - S a)) (drop (S a) brd) !! (c - S b) = Some (Some m)) as Hc'.
  { rewrite !lookup_drop.
    by replace (S a + (S (b - S a) + (c - S b))) with c by lia. }
  pose proof (count_mark_drop _ _ m Hc') as H3.
  lia.
Qed.

Lemma other_involutive (p : mark) : other (other p) = p.
Proof. by destruct p. Qed.

Lemma episode_ok_turns (brd : board) (player : mark) (log : list transition) :
  episode_ok brd player log → turn_ok brd player →
  ∀ t, t ∈ log → turn_ok (t_before t) (t_mover t).
Proof.
  revert brd player. induction log as [|t0 rest IH]; intros brd player; [done|].
  intros (Hb & Hm & Hok & Hrest) Hturn t [-> | Ht]%elem_of_cons.
  - by rewrite Hb, Hm.
  - destruct rest as [|t1 rest']; [inversion Ht|]. destruct Hrest as [_ Hrest].
    apply (IH _ _ Hrest); [|done].
    destruct Hok as (_ & _ & _ & Hlegal & -> & _).
    rewrite Hb, Hm in *. destruct Hturn as [H1 H2]. unfold turn_ok.
    rewrite other_involutive, !(count_mark_insert _ _ _ _ Hlegal).
    destruct player; simpl in *; lia.
Qed.

Lemma episode_ok_empties (brd : board) (player : mark) (log : list transition)
    (t : transition) :
  episode_ok brd player log → last log = Some t →
  length (empty_cells (t_after t)) + length log = length (empty_cells brd).
Proof.
  revert brd player. induction log as [|t0 rest IH]; intros brd player; [done|].
  intros (<- & _ & Hok & Hrest) Hlast.
  destruct Hok as (_ & _ & _ & _ & _ & Hcount & _).
  destruct rest as [|t1 rest'].
  - injection Hlast as <-. simpl. lia.
  - destruct Hrest as [_ Hrest]. specialize (IH _ _ Hrest Hlast).
    simpl in *. lia.
Qed.

(** An episode of [train] lasts between five and nine passes: a line is
    not complete before the mover's third mark, and the board is full
    after nine. An episode of fewer than nine passes ends with a win of its
    last mover, and an episode without a winner has exactly nine. *)
Theorem train_episode_length (fuel : nat) (rng : nat → draw)
    (self self' : SelfPlayAgent) (tick tick' : nat) (episodes : Z)
    (logs : list (list transition)) :
  train fuel rng self tick episodes = Some (Ok logs, self', tick') →
  ∀ log, log ∈ logs →
    5 ≤ length log ∧ length log ≤ 9 ∧
    ∃ t, last log = Some t ∧
         length (empty_cells (t_after t)) = 9 - length log ∧
         (length log < 9 → t_winner t = Some (t_mover t)) ∧
         (t_winner t = None → length log = 9).
Proof.
  intros Htrain log [n Hn]%list_elem_of_lookup_1.
  pose proof (train_spec fuel rng self tick episodes) as Hspec.
  rewrite Htrain in Hspec. destruct Hspec as [_ Heps].
  specialize (Heps n log Hn).
  pose proof (episode_ok_Forall _ _ _ Heps) as Hall.
  rewrite Forall_forall in Hall.
  destruct (episode_ok_last _ _ _ Heps) as (t & Hlast & Hdone & _).
  assert (t ∈ log) as Ht.
  { rewrite last_lookup in Hlast. by eapply list_elem_of_lookup_2. }
  pose proof (episode_ok_empties _ _ _ _ Heps Hlast) as Hemp.
  rewrite empty_cells_empty in Hemp. simpl in Hemp.
  assert (turn_ok (t_before t) (t_mover t)) as [Hturn _].
  { apply (episode_ok_turns _ _ _ Heps); [|done].
    destruct (first_player n); split; vm_compute; lia. }
  destruct (Hall t Ht)
    as (Hlen & _ & _ & Hlegal & Hafter & _ & Hcw & Hd & _ & _ & Hmover).
  assert (length (t_after t) = 9) as Hlen'
    by (rewrite Hafter; by rewrite length_insert).
  pose proof (count_mark_total 0 (t_after t)) as Htotal.
  fold (empty_cells (t_after t)) in Htotal. rewrite Hlen' in Htotal.
  assert (t_winner t = Some (t_mover t) ∧ 5 ≤ length log ∨
          t_winner t = None ∧ length log = 9) as Hcases.
  { destruct (check_winner_first (t_after t) Hlen') as
      [(l1 & line & l2 & m & Hsplit & Hfull & _ & Hr) | [_ Hr]];
      rewrite Hcw in Hr; injection Hr as Hw.
    - left. assert (line ∈ WIN_LINES) as Hin by (rewrite Hsplit; set_solver).
      pose proof (Hmover line m Hin Hfull) as ->.
      split; [done|].
      pose proof (line_full_count _ _ _ Hin Hfull) as H3.
      rewrite Hafter in H3, Htotal.
      rewrite !(count_mark_insert _ _ _ _ Hlegal) in Htotal.
      rewrite (count_mark_insert _ _ _ _ Hlegal), decide_True in H3 by done.
      rewrite <- Hafter in Htotal.
      clear -Hturn Htotal H3 Hemp. revert Hturn Htotal H3.
      generalize (t_mover t). intros []; unfold other; simpl; lia.
    - right. split; [done|]. rewrite Hdone, Hw in Hd. simpl in Hd.
      symmetry in Hd. apply is_full_empty_cells in Hd. rewrite Hd in Hemp.
      simpl in Hemp. lia. }
  split_and!; [destruct Hcases as [[_ ?] | [_ ?]]; lia | lia |].
  exists t. split_and!; [done | lia | |].
  - intros Hlt. destruct Hcases as [[? _] | [_ ?]]; [done | lia].
  - intros Hw. destruct Hcases as [[Hw' _] | [_ ?]]; [congruence | done].
Qed.

Lemma train_episode_length_witness :
  train 9 rng_ex default_agent 0 2 = Some (Ok logs_ex, self_ex, tick_ex) ∧
  ∀ log, log ∈ logs_ex → 5 ≤ length log ∧ length log ≤ 9.
Proof.
  split; [vm_compute; reflexivity|].
  intros log Hlog.
  destruct (train_episode_length 9 rng_ex default_agent self_ex 0 tick_ex 2
              logs_ex ltac:(vm_compute; reflexivity) log Hlog)
    as (H5 & H9 & _).
  by split.
Defined.

(** ** The human's move *)

Lemma human_move_outcome (parse_int : string → option Z) (inputs : list string)
    (out : list output) (brd : board) (player : mark) :
  length brd = 9 →
  match human_move parse_int inputs out brd player with
  | (Returned brd', rest, out') =>
      ∃ skipped line tgt,
        inputs = skipped ++ line :: rest ∧
        Forall (rejected parse_int brd) skipped ∧
        parse_int line = Some (Z.of_nat tgt) ∧
        tgt < 9 ∧ brd !! tgt = Some None ∧
        brd' = <[tgt := Some player]> brd ∧
        (∀ i, i ≠ tgt → brd' !! i = brd !! i) ∧
        length out' = length out + 2 * length skipped + 1
  | (Raised EOFError, rest, out') =>
      rest = [] ∧ Forall (rejected parse_int brd) inputs ∧
      length out' = length out + 2 * length inputs + 1
  | (Raised (Core _), _, _) => False
  end.
Proof.
  intros Hlen. revert out. induction inputs as [|line rest IH]; intros out.
  - simpl. split_and!; [done | constructor |]. rewrite length_app. simpl. lia.
  - assert (∀ msg, rejected parse_int brd line →
        match human_move parse_int rest
                (out ++ [Prompted PROMPT_MOVE] ++ [Printed msg]) brd player with
        | (Returned brd', rest', out') =>
            ∃ skipped line' tgt,
              line :: rest = skipped ++ line' :: rest' ∧
              Forall (rejected parse_int brd) skipped ∧
              parse_int line' = Some (Z.of_nat tgt) ∧
              tgt < 9 ∧ brd !! tgt = Some None ∧
              brd' = <[tgt := Some player]> brd ∧
              (∀ i, i ≠ tgt → brd' !! i = brd !! i) ∧
              length out' = length out + 2 * length skipped + 1
        | (Raised EOFError, rest', out') =>
            rest' = [] ∧ Forall (rejected parse_int brd) (line :: rest) ∧
            length out' = length out + 2 * length (line :: rest) + 1
        | (Raised (Core _), _, _) => False
        end) as Hskip.
    { intros msg Hrej. specialize (IH (out ++ [Prompted PROMPT_MOVE] ++ [Printed msg])).
      destruct (human_move parse_int rest _ brd player) as [[[brd'|[|e]] rest'] out'].
      - destruct IH as (skipped & line' & tgt & -> & Hall & Hp & Hlt & He & Hb & Hf & Ho).
        exists (line :: skipped), line', tgt. split_and!; try done.
        + by constructor.
        + rewrite Ho, !length_app. simpl. lia.
      - destruct IH as (-> & Hall & Ho). split_and!; [done | by constructor |].
        rewrite Ho, !length_app. simpl. lia.
      - done. }
    cbn [human_move].
    destruct (parse_int line) as [tgt|] eqn:Hparse.
    + destruct (decide (0 ≤ tgt < 9)%Z) as [Hrange|Hrange].
      * assert (Z.to_nat tgt < length brd) as Hlt by lia.
        apply lookup_lt_is_Some in Hlt as [v Hv].
        rewrite (getitem_lookup _ _ _ Hv).
        destruct (decide (v ≠ None)) as [Hocc|Hfree].
        -- rewrite <- app_assoc. apply Hskip. unfold rejected. rewrite Hparse.
           right. destruct v as [m|]; [by exists m | by destruct Hocc].
        -- assert (v = None) as -> by (destruct v; [by destruct Hfree | done]).
           exists [], line, (Z.to_nat tgt). split_and!; try done.
           ++ rewrite Hparse. f_equal. lia.
           ++ lia.
           ++ intros i Hi. by rewrite list_lookup_insert_ne.
           ++ rewrite length_app. simpl. lia.
      * rewrite <- app_assoc. apply Hskip. unfold rejected. rewrite Hparse.
        by left.
    + rewrite <- app_assoc. apply Hskip. unfold rejected. by rewrite Hparse.
Qed.

(** On a board of nine cells [human_move] raises nothing but [EOFError],
    and that only when every line left was rejected. When it returns, it
    has skipped the rejected lines, each answered by one message and a new
    prompt, and has written the player's mark on the cell named by the
    first other line, a cell in range that was Empty; no other cell has
    changed. *)
Theorem human_move_spec (parse_int : string → option Z) (inputs : list string)
    (out : list output) (brd : board) (player : mark) :
  length brd = 9 →
  match human_move parse_int inputs out brd player with
  | (Returned brd', rest, out') =>
      ∃ skipped line tgt,
        inputs = skipped ++ line :: rest ∧
        Forall (rejected parse_int brd) skipped ∧
        parse_int line = Some (Z.of_nat tgt) ∧
        tgt < 9 ∧ brd !! tgt = Some None ∧
        brd' = <[tgt := Some player]> brd ∧
        (∀ i, i ≠ tgt → brd' !! i = brd !! i) ∧
        length out' = length out + 2 * length skipped + 1
  | (Raised EOFError, rest, out') =>
      rest = [] ∧ Forall (rejected parse_int brd) inputs ∧
      length out' = length out + 2 * length inputs + 1
  | (Raised (Core _), _, _) => False
  end.
Proof. apply human_move_outcome. Qed.

Lemma human_move_spec_witness :
  length board_ex = 9 ∧
  human_move (λ _, Some 3%Z) ["3"] [] board_ex O =
    (Returned (<[3 := Some O]> board_ex), [], [Prompted PROMPT_MOVE]).
Proof.
  split; [done|].
  pose proof (human_move_spec (λ _, Some 3%Z) ["3"] [] board_ex O eq_refl) as H.
  destruct (human_move (λ _, Some 3%Z) ["3"] [] board_ex O)
    as [[[brd'|e] rest] out'] eqn:E; [|vm_compute in E; discriminate].
  vm_compute in E. exact (eq_sym E).
Defined.

(** ** The display *)

Lemma cell_text_char (i : nat) (v : option mark) :
  i < 9 → ∃ ch, cell_text i v = String ch "".
Proof.
  intros Hi. do 9 (destruct i as [|i]; [destruct v as [[]|]; by eexists|]). lia.
Qed.

Lemma cell_text_inj (i : nat) (v v' : option mark) :
  i < 9 → cell_text i v = cell_text i v' → v = v'.
Proof.
  intros Hi. do 9 (destruct i as [|i]; [by destruct v as [[]|], v' as [[]|]|]). lia.
Qed.

(** [display_board] raises [IndexError] exactly on a board of fewer than
    nine cells, after the first separator and the rows it could complete;
    on any other board it writes seven lines. *)
Theorem display_board_spec (brd : board) (out : list output) :
  (length brd < 9 →
   (display_board brd out).1 = Raise IndexError ∧
   length (display_board brd out).2 = length out + 1 + 2 * (length brd / 3)) ∧
  (9 ≤ length brd →
   (display_board brd out).1 = Ok () ∧
   length (display_board brd out).2 = length out + 7).
Proof.
  split; intros Hlen.
  - do 9 (destruct brd as [|? brd];
          [unfold display_board; simpl; rewrite ?length_app; simpl; split; [done | lia]|]).
    simpl in Hlen. lia.
  - do 9 (destruct brd as [|? brd]; [simpl in Hlen; lia|]).
    unfold display_board. simpl. rewrite ?length_app. simpl. split; [done | lia].
Qed.

Lemma row_text_inj (i j k : nat) (a b c a' b' c' : option mark) :
  i < 9 → j < 9 → k < 9 →
  cell_text i a +:+ " | " +:+ cell_text j b +:+ " | " +:+ cell_text k c =
  cell_text i a' +:+ " | " +:+ cell_text j b' +:+ " | " +:+ cell_text k c' →
  a = a' ∧ b = b' ∧ c = c'.
Proof.
  intros Hi Hj Hk Heq.
  destruct (cell_text_char i a Hi) as [x Hx], (cell_text_char i a' Hi) as [x' Hx'],
    (cell_text_char j b Hj) as [y Hy], (cell_text_char j b' Hj) as [y' Hy'],
    (cell_text_char k c Hk) as [z Hz], (cell_text_char k c' Hk) as [z' Hz'].
  rewrite Hx, Hx', Hy, Hy', Hz, Hz' in Heq. simpl in Heq.
  injection Heq as -> -> ->.
  split_and!;
    [apply (cell_text_inj i) | apply (cell_text_inj j) | apply (cell_text_inj k)];
    try done; congruence.
Qed.

(** The display of a board of nine cells is unambiguous: an Empty cell is
    shown as its index and a mark as itself, so two boards that are written
    alike are equal. *)
Theorem display_board_inj (brd brd' : board) (out : list output) :
  length brd = 9 → length brd' = 9 →
  display_board brd out = display_board brd' out → brd = brd'.
Proof.
  intros Hl Hl' Heq.
  do 9 (destruct brd as [|? brd]; [done|]). destruct brd; [|done].
  do 9 (destruct brd' as [|? brd']; [done|]). destruct brd'; [|done].
  unfold display_board in Heq. simpl in Heq.
  injection Heq as Heq. rewrite <- !app_assoc in Heq.
  apply app_inv_head in Heq. simpl in Heq. injection Heq as H0 H3 H6.
  apply row_text_inj in H0 as (-> & -> & ->); [|lia..].
  apply row_text_inj in H3 as (-> & -> & ->); [|lia..].
  apply row_text_inj in H6 as (-> & -> & ->); [|lia..].
  done.
Qed.

Lemma display_board_inj_witness :
  length board_ex = 9 ∧
  (display_board board_ex []).2 =
    [Printed "--+---+--"; Printed "X | 1 | O"; Printed "--+---+--";
     Printed "3 | 4 | 5"; Printed "--+---+--"; Printed "6 | 7 | 8";
     Printed "--+---+--"] ∧
  board_ex = board_ex.
Proof.
  split_and!; [done | done |].
  exact (display_board_inj board_ex board_ex [] eq_refl eq_refl eq_refl).
Defined.

(** ** Games against the agent *)

Lemma display_board_nine (brd : board) (out : list output) :
  length brd = 9 →
  ∃ more, display_board brd out = (Ok (), out ++ more).
Proof.
  intros Hlen.
  do 9 (destruct brd as [|? brd]; [done|]). destruct brd; [|done].
  unfold display_board. simpl. rewrite <- !app_assoc. by eexists.
Qed.

Lemma best_move_move (agent : SelfPlayAgent) (brd : board) (player : mark) :
  is_full brd = false →
  ∃ m, (best_move agent brd player).1 = Ok m ∧ brd !! m = Some None.
Proof.
  intros Hfull.
  assert (empty_cells brd ≠ []) as Hne.
  { intros E%is_full_empty_cells. congruence. }
  destruct (choose_action_legal agent brd player false
              {| rand := 0; pick := 0 |} Hne) as (m & Hm & Hlegal).
  exists m. rewrite best_move_eq. simpl. by rewrite Hm.
Qed.

Lemma best_move_entry (agent : SelfPlayAgent) (brd : board) (player : mark)
    (k : key) (a : nat) :
  entry (q (best_move agent brd player).2) k a = entry (q agent) k a.
Proof. rewrite best_move_eq. apply choose_action_entry. Qed.

Lemma best_move_params (agent : SelfPlayAgent) (brd : board) (player : mark) :
  alpha (best_move agent brd player).2 = alpha agent ∧
  gamma (best_move agent brd player).2 = gamma agent ∧
  epsilon (best_move agent brd player).2 = epsilon agent.
Proof. rewrite best_move_eq. apply choose_action_params. Qed.

Lemma session_ok_trans (agent agent1 : SelfPlayAgent)
    (inputs inputs1 : list string) (out out1 : list output) (s : session unit) :
  (∀ k a, entry (q agent1) k a = entry (q agent) k a) →
  alpha agent1 = alpha agent → gamma agent1 = gamma agent →
  epsilon agent1 = epsilon agent →
  (∃ read, inputs = read ++ inputs1) → (∃ more, out1 = out ++ more) →
  session_ok agent1 inputs1 out1 s → session_ok agent inputs out s.
Proof.
  intros Hq Ha Hg He [read ->] [more ->] (Hr & Hq' & Ha' & Hg' & He' & [read' Hi] & [more' Ho]).
  unfold session_ok.
  split_and!; [done | intros k a; by rewrite Hq', Hq | congruence.. | |].
  - exists (read ++ read'). by rewrite Hi, app_assoc.
  - exists (more ++ more'). by rewrite Ho, app_assoc.
Qed.

Lemma human_move_io (parse_int : string → option Z) (inputs : list string)
    (out : list output) (brd : board) (player : mark) :
  (∃ read, inputs = read ++ (human_move parse_int inputs out brd player).1.2) ∧
  (∃ more, (human_move parse_int inputs out brd player).2 = out ++ more).
Proof.
  revert out. induction inputs as [|line rest IH]; intros out.
  - simpl. split; [by exists [] | by eexists].
  - assert (∀ msg,
      (∃ read, line :: rest = read ++
         (human_move parse_int rest
            ((out ++ [Prompted PROMPT_MOVE]) ++ [Printed msg]) brd player).1.2) ∧
      (∃ more,
         (human_move parse_int rest
            ((out ++ [Prompted PROMPT_MOVE]) ++ [Printed msg]) brd player).2
         = out ++ more)) as Hskip.
    { intros msg.
      destruct (IH ((out ++ [Prompted PROMPT_MOVE]) ++ [Printed msg]))
        as [[read Hr] [more Hm]]. split.
      - exists (line :: read). simpl. by f_equal.
      - rewrite Hm, <- !app_assoc. by eexists. }
    cbn [human_move]. destruct (parse_int line) as [tgt|]; [|apply Hskip].
    destruct (decide (0 ≤ tgt < 9)%Z); [|apply Hskip].
    destruct (getitem brd (Z.to_nat tgt)) as [v|e]; simpl.
    + destruct (decide (v ≠ None)); [apply Hskip|]. simpl.
      split; [by exists [line] | by eexists].
    + split; [by exists [line] | by eexists].
Qed.

Section SessionProps.
Variable parse_int : string → option Z.

(** A game from a board of nine cells that is not full: it ends, within as
    many passes as there are Empty cells, and keeps what [session_ok]
    says. *)
Lemma game_outcome (fuel : nat) (agent : SelfPlayAgent) (inputs : list string)
    (out : list output) (brd : board) (current : mark) :
  length brd = 9 → is_full brd = false → length (empty_cells brd) ≤ fuel →
  ∃ s, game parse_int fuel agent inputs out brd current = Some s ∧
       session_ok agent inputs out s.
Proof.
  revert agent inputs out brd current.
  induction fuel as [|fuel IH]; intros agent inputs out brd current Hlen Hfull Hfuel.
  { assert (empty_cells brd = []) as E by (destruct (empty_cells brd); [done | simpl in Hfuel; lia]).
    apply is_full_empty_cells in E. congruence. }
  assert (∀ agent1 inputs1 out1 tgt mover next,
    brd !! tgt = Some None →
    (∀ k a, entry (q agent1) k a = entry (q agent) k a) →
    alpha agent1 = alpha agent → gamma agent1 = gamma agent →
    epsilon agent1 = epsilon agent →
    (∃ read, inputs = read ++ inputs1) → (∃ more, out1 = out ++ more) →
    ∃ s,
      match display_board (<[tgt := Some mover]> brd) out1 with
      | (Raise e, out2) => Some (Raised (Core e), agent1, inputs1, out2)
      | (Ok _, out2) =>
          match check_winner (<[tgt := Some mover]> brd) with
          | Raise e => Some (Raised (Core e), agent1, inputs1, out2)
          | Ok (Some win) =>
              Some (Returned (), agent1, inputs1, out2 ++ [Printed (msg_win win)])
          | Ok None =>
              if is_full (<[tgt := Some mover]> brd) then
                Some (Returned (), agent1, inputs1, out2 ++ [Printed MSG_DRAW])
              else game parse_int fuel agent1 inputs1 out2
                     (<[tgt := Some mover]> brd) next
          end
      end = Some s ∧ session_ok agent inputs out s) as Hcont.
  { intros agent1 inputs1 out1 tgt mover next Hlegal Hq Ha Hg He Hin Hout.
    set (brd1 := <[tgt := Some mover]> brd).
    assert (length brd1 = 9) as Hlen1 by (unfold brd1; by rewrite length_insert).
    destruct (display_board_nine brd1 out1 Hlen1) as [more Hd]. rewrite Hd.
    destruct (check_winner_total brd1 Hlen1) as [w Hw]. rewrite Hw.
    assert (∀ extra, session_ok agent inputs out
              (Returned (), agent1, inputs1, (out1 ++ more) ++ extra)) as Hend.
    { intros extra. eapply (session_ok_trans agent agent1 inputs inputs1 out out1);
        try done.
      unfold session_ok. simpl. split_and!; try done; [by left | by exists [] |].
      rewrite <- app_assoc. by eexists. }
    destruct w as [win|]; [by eexists|].
    destruct (is_full brd1) eqn:Hfull1; [by eexists|].
    destruct (IH agent1 inputs1 (out1 ++ more) brd1 next Hlen1 Hfull1)
      as (s & Hs & Hok).
    { pose proof (empty_cells_from_insert brd tgt 0 mover Hlegal) as Hc.
      unfold empty_cells, brd1 in *. lia. }
    exists s. split; [done|].
    eapply (session_ok_trans agent agent1 inputs inputs1 out (out1 ++ more));
      try done.
    destruct Hout as [more0 ->]. rewrite <- app_assoc. by eexists. }
  cbn [game]. destruct (decide (current = human)) as [-> | Hcpu].
  - pose proof (human_move_outcome parse_int inputs
                  (out ++ [Printed MSG_YOUR_TURN]) brd human Hlen) as Hh.
    pose proof (human_move_io parse_int inputs
                  (out ++ [Printed MSG_YOUR_TURN]) brd human) as [Hread Hmore].
    destruct (human_move parse_int inputs (out ++ [Printed MSG_YOUR_TURN]) brd human)
      as [[[brd1|[|e]] inputs1] out1]; simpl in Hread, Hmore.
    + destruct Hh as (skipped & line & tgt & _ & _ & _ & _ & Hlegal & -> & _).
      apply Hcont; try done.
      destruct Hmore as [more ->]. rewrite <- app_assoc. by eexists.
    + eexists. split; [done|]. unfold session_ok. simpl.
      split_and!; try done; [by right|].
      destruct Hmore as [more ->]. rewrite <- app_assoc. by eexists.
    + done.
  - destruct (best_move_move agent brd cpu Hfull) as (m & Hm & Hlegal).
    pose proof (best_move_entry agent brd cpu) as Hq.
    destruct (best_move_params agent brd cpu) as (Ha & Hg & He).
    destruct (best_move agent brd cpu) as [r agent1]. simpl in *. subst r.
    unfold setitem. rewrite decide_True by (by eapply lookup_lt_Some).
    apply Hcont; try done; [by exists [] | by eexists].
Qed.
End SessionProps.

Lemma games_outcome (parse_int : string → option Z) (says_y : string → bool)
    (fuel : nat) (agent : SelfPlayAgent) (inputs : list string)
    (out : list output) :
  length inputs < fuel →
  ∃ s, games parse_int says_y fuel agent inputs out = Some s ∧
       session_ok agent inputs out s.
Proof.
  revert agent inputs out.
  induction fuel as [|fuel IH]; intros agent inputs out Hfuel; [lia|].
  cbn [games]. unfold input at 1. destruct inputs as [|line rest].
  { eexists. split; [done|]. unfold session_ok. simpl.
    split_and!; try done; [by right | by exists [] | by eexists]. }
  destruct (display_board_nine (replicate 9 None)
              (out ++ [Prompted PROMPT_FIRST]) eq_refl) as [more Hd].
  rewrite Hd.
  destruct (game_outcome parse_int 9 agent rest
              ((out ++ [Prompted PROMPT_FIRST]) ++ more) (replicate 9 None)
              (if says_y line then human else cpu) eq_refl eq_refl)
    as (s1 & Hs1 & Hok1); [by rewrite empty_cells_empty|].
  rewrite Hs1. destruct s1 as [[[r agent1] inputs2] out3].
  assert (∀ s, session_ok agent1 inputs2 out3 s →
               session_ok agent (line :: rest) out s) as Hlift.
  { intros s Hs.
    destruct Hok1 as (_ & Hq & Ha & Hg & He & [read Hread] & [more1 Hmore]).
    simpl in *.
    eapply (session_ok_trans agent agent1 _ inputs2 out out3); try done.
    - exists (line :: read). simpl. by f_equal.
    - rewrite Hmore, <- !app_assoc. by eexists. }
  destruct Hok1 as ([Hr | Hr] & _ & _ & _ & _ & [read Hread] & _);
    simpl in Hr, Hread; subst r.
  - unfold input. destruct inputs2 as [|retry inputs3].
    + eexists. split; [done|]. apply Hlift. unfold session_ok. simpl.
      split_and!; try done; [by right | by exists [] | by eexists].
    + destruct (says_y retry).
      * destruct (IH agent1 inputs3 (out3 ++ [Prompted PROMPT_RETRY]))
          as (s & Hs & Hok).
        { rewrite Hread in Hfuel. simpl in Hfuel.
          rewrite length_app in Hfuel. simpl in Hfuel. lia. }
        exists s. split; [done|]. apply Hlift.
        eapply (session_ok_trans agent1 agent1 _ inputs3 out3); try done;
          [by exists [retry] | by eexists].
      * eexists. split; [done|]. apply Hlift. unfold session_ok. simpl.
        split_and!; try done; [by left | by exists [retry] | by eexists].
  - eexists. split; [done|]. apply Hlift. unfold session_ok. simpl.
    split_and!; try done;
      [by right | by exists [] | exists []; by rewrite app_nil_r].
Qed.

Section PlayAgainstAgent.
Context {bytes : Type}.
Variable pickle_dump : gmap key dict → bytes.
Variable pickle_load : bytes → result (gmap key dict).
Variable parse_int : string → option Z.
Variable says_y : string → bool.
Variable Q_TABLE_PATH : string.

Lemma play_against_agent_cases (rng : nat → draw) (agent : SelfPlayAgent)
    (fs : gmap string bytes) (episodes : Z) (inputs : list string) :
  ∃ r agent' inputs' out' fs',
    play_against_agent pickle_dump pickle_load parse_int says_y Q_TABLE_PATH
      rng agent fs episodes inputs = Some ((r, agent', inputs', out'), fs') ∧
    (∃ read, inputs = read ++ inputs') ∧
    match fs !! Q_TABLE_PATH with
    | None =>
        ∃ logs trained tick',
          train 9 rng agent 0 episodes = Some (Ok logs, trained, tick') ∧
          fs' = <[Q_TABLE_PATH := pickle_dump (q trained)]> fs ∧
          (∀ k a, entry (q agent') k a = entry (q trained) k a) ∧
          (r = Returned () ∨ r = Raised EOFError) ∧
          ∃ more, out' = [Printed (msg_training episodes); Printed MSG_TRAINED]
                         ++ more
    | Some fh =>
        fs' = fs ∧
        match pickle_load fh with
        | Ok data =>
            (∀ k a, entry (q agent') k a = entry data k a) ∧
            (r = Returned () ∨ r = Raised EOFError) ∧
            ∃ more, out' = [Printed MSG_LOADED] ++ more
        | Raise e =>
            r = Raised (Core e) ∧ agent' = agent ∧ inputs' = inputs ∧ out' = []
        end
    end.
Proof.
  unfold play_against_agent, prepare, load.
  destruct (fs !! Q_TABLE_PATH) as [fh|] eqn:Hfile.
  - destruct (pickle_load fh) as [data|e].
    + destruct (games_outcome parse_int says_y (S (length inputs))
                  (set_q agent data) inputs ([] ++ [Printed MSG_LOADED]))
        as ([[[r agent'] inputs'] out'] & -> & Hr & Hq & _ & _ & _ & Hread & Hmore);
        [lia|].
      simpl in *. by exists r, agent', inputs', out', fs.
    + exists (Raised (Core e)), agent, inputs, [], fs.
      split_and!; try done. by exists [].
  - pose proof (train_spec 9 rng agent 0 episodes) as Hspec.
    destruct (train 9 rng agent 0 episodes)
      as [[[[logs|e] trained] tick']|]; [| done | lia].
    destruct (games_outcome parse_int says_y (S (length inputs)) trained inputs
                (([] ++ [Printed (msg_training episodes)])
                   ++ [Printed MSG_TRAINED]))
      as ([[[r agent'] inputs'] out'] & -> & Hr & Hq & _ & _ & _ & Hread & Hmore);
      [lia|].
    simpl in *.
    exists r, agent', inputs', out',
      (save pickle_dump trained fs Q_TABLE_PATH).
    split_and!; try done. by exists logs, trained, tick'.
Qed.

(** [play_against_agent] on any inputs and file system ends. When the file
    is missing it trains, saves the trained table to the path and plays
    with it; when the file deserializes it plays with the table of the
    file, trains nothing and leaves the files alone; when it does not
    deserialize the error is the outcome, before a word is written or a
    line read. The games end by a refusal to play again or by [EOFError],
    never by an error of the agent, and change no stored value. *)
Theorem play_against_agent_spec (rng : nat → draw) (agent : SelfPlayAgent)
    (fs : gmap string bytes) (episodes : Z) (inputs : list string) :
  ∃ r agent' inputs' out' fs',
    play_against_agent pickle_dump pickle_load parse_int says_y Q_TABLE_PATH
      rng agent fs episodes inputs = Some ((r, agent', inputs', out'), fs') ∧
    (∃ read, inputs = read ++ inputs') ∧
    match fs !! Q_TABLE_PATH with
    | None =>
        ∃ logs trained tick',
          train 9 rng agent 0 episodes = Some (Ok logs, trained, tick') ∧
          fs' = <[Q_TABLE_PATH := pickle_dump (q trained)]> fs ∧
          (∀ k a, entry (q agent') k a = entry (q trained) k a) ∧
          (r = Returned () ∨ r = Raised EOFError) ∧
          ∃ more, out' = [Printed (msg_training episodes); Printed MSG_TRAINED]
                         ++ more
    | Some fh =>
        fs' = fs ∧
        match pickle_load fh with
        | Ok data =>
            (∀ k a, entry (q agent') k a = entry data k a) ∧
            (r = Returned () ∨ r = Raised EOFError) ∧
            ∃ more, out' = [Printed MSG_LOADED] ++ more
        | Raise e =>
            r = Raised (Core e) ∧ agent' = agent ∧ inputs' = inputs ∧ out' = []
        end
    end.
Proof. apply play_against_agent_cases. Qed.

Hypothesis pickle_roundtrip : ∀ data, pickle_load (pickle_dump data) = Ok data.

(** Training happens once: when a run of [play_against_agent] found no
    file, the next run, with any agent, episode count and inputs, loads
    what the first one trained, says so, trains nothing and leaves the
    files as they are. *)
Theorem play_against_agent_again (rng rng2 : nat → draw)
    (agent agent2 : SelfPlayAgent) (fs : gmap string bytes)
    (episodes episodes2 : Z) (inputs inputs2 : list string) :
  fs !! Q_TABLE_PATH = None →
  ∃ logs trained tick' s1 fs1 r2 agent2' inputs2' out2',
    train 9 rng agent 0 episodes = Some (Ok logs, trained, tick') ∧
    play_against_agent pickle_dump pickle_load parse_int says_y Q_TABLE_PATH
      rng agent fs episodes inputs = Some (s1, fs1) ∧
    play_against_agent pickle_dump pickle_load parse_int says_y Q_TABLE_PATH
      rng2 agent2 fs1 episodes2 inputs2 =
      Some ((r2, agent2', inputs2', out2'), fs1) ∧
    (∀ k a, entry (q agent2') k a = entry (q trained) k a) ∧
    ∃ more, out2' = [Printed MSG_LOADED] ++ more.
Proof.
  intros Hfile.
  destruct (play_against_agent_cases rng agent fs episodes inputs)
    as (r & agent' & inputs' & out' & fs1 & Hrun & _ & Hcase).
  rewrite Hfile in Hcase.
  destruct Hcase as (logs & trained & tick' & Htrain & -> & _).
  destruct (play_against_agent_cases rng2 agent2
              (<[Q_TABLE_PATH := pickle_dump (q trained)]> fs) episodes2 inputs2)
    as (r2 & agent2' & inputs2' & out2' & fs2 & Hrun2 & _ & Hcase2).
  rewrite lookup_insert_eq, pickle_roundtrip in Hcase2.
  destruct Hcase2 as (-> & Hq & _ & Hout).
  by exists logs, trained, tick', (r, agent', inputs', out'),
    (<[Q_TABLE_PATH := pickle_dump (q trained)]> fs),
    r2, agent2', inputs2', out2'.
Qed.
End PlayAgainstAgent.

Lemma play_against_agent_again_witness :
  (∀ data, ideal_load (ideal_dump data) = Ok data) ∧
  (∅ : gmap string (option (gmap key dict))) !! "q_table.pkl" = None ∧
  ∃ trained fs1 r2 agent2' inputs2' out2',
    play_against_agent ideal_dump ideal_load (λ _, None) (λ _, false)
      "q_table.pkl" rng_ex agent_ex fs1 5 ["n"] =
      Some ((r2, agent2', inputs2', out2'), fs1) ∧
    (∀ k a, entry (q agent2') k a = entry (q trained) k a).
Proof.
  split_and!; [done | done |].
  destruct (play_against_agent_again ideal_dump ideal_load (λ _, None)
              (λ _, false) "q_table.pkl" (λ data, eq_refl) rng_ex rng_ex
              default_agent agent_ex ∅ 2 5 [] ["n"] (lookup_empty _))
    as (logs & trained & tick' & s1 & fs1 & r2 & agent2' & inputs2' & out2'
        & _ & _ & Hrun2 & Hq & _).
  by exists trained, fs1, r2, agent2', inputs2', out2'.
Defined.
